(** * downwatch: the dispatch core of [main.go], embedded and verified

    The Go program watches a directory and files every new arrival under a
    rule-determined destination.  This development embeds the functions of
    [main.go] that make up the dispatch core (classifier, stability
    detector, transfer engine, dispatch coordinator) and proves or refutes
    the properties the specification states about them.

    Conventions.
    - A Go [string] is a [string] of bytes; case mapping is the ASCII one
      (bytes above 0x7f are left alone), and a rune is one byte.
    - The file system is a finite map from cleaned path names to nodes.
    - Every primitive whose error the Go code inspects can fail; which
      calls fail is fixed by an environment ([Faults]). *)

From Stdlib Require Import ZArith Lia Bool List Ascii String DecimalString.
From stdpp Require Import base option list gmap strings.

Local Open Scope string_scope.
Local Open Scope Z_scope.

(** ** Package [strings] *)

Module Strings.

Definition HasPrefix (s p : string) : bool := String.prefix p s.

Fixpoint drop (n : nat) (s : string) : string :=
  match n, s with
  | O, _ => s
  | S n', String _ r => drop n' r
  | S _, EmptyString => EmptyString
  end.

Fixpoint take (n : nat) (s : string) : string :=
  match n, s with
  | S n', String c r => String c (take n' r)
  | _, _ => EmptyString
  end.

Definition TrimPrefix (s p : string) : string :=
  if HasPrefix s p then drop (String.length p) s else s.

Definition HasSuffix (s suf : string) : bool :=
  (String.length suf <=? String.length s)%nat
  && String.eqb (drop (String.length s - String.length suf) s) suf.

Definition TrimSuffix (s suf : string) : string :=
  if HasSuffix s suf then take (String.length s - String.length suf) s else s.

Definition is_upper (c : ascii) : bool :=
  let n := nat_of_ascii c in ((65 <=? n) && (n <=? 90))%nat.

Definition lower_byte (c : ascii) : ascii :=
  if is_upper c then ascii_of_nat (nat_of_ascii c + 32) else c.

Fixpoint ToLower (s : string) : string :=
  match s with
  | EmptyString => EmptyString
  | String c r => String (lower_byte c) (ToLower r)
  end.

(** [strings.EqualFold] on ASCII: equality after case folding. *)
Definition EqualFold (s t : string) : bool := String.eqb (ToLower s) (ToLower t).

Fixpoint Contains_byte (s : string) (c : ascii) : bool :=
  match s with
  | EmptyString => false
  | String d r => Ascii.eqb d c || Contains_byte r c
  end.

(** [strings.Join elems sep]. *)
Fixpoint Join (elems : list string) (sep : string) : string :=
  match elems with
  | [] => ""
  | [e] => e
  | e :: r => e ++ sep ++ Join r sep
  end.

(** [strings.Split s "/"]. *)
Fixpoint split_slash_aux (s : string) (cur : string) : list string :=
  match s with
  | EmptyString => [cur]
  | String c r =>
      if Ascii.eqb c "/" then cur :: split_slash_aux r ""
      else split_slash_aux r (cur ++ String c "")
  end.

Definition split_slash (s : string) : list string := split_slash_aux s "".

(** [strconv.Itoa] on a non-negative int, the [%d] verb of [fmt.Sprintf]. *)
Definition Itoa (n : nat) : string := NilZero.string_of_uint (Nat.to_uint n).

End Strings.

(** ** Package [path/filepath] (Unix) *)

Module Filepath.
Import Strings.

(** [filepath.Ext]: scan from the right, stop at the first ['.'] (the
    extension starts there) or at a separator (no extension).  The result
    of the scan over a suffix is [None] while neither byte has been seen. *)
Fixpoint ext_scan (s : string) : option string :=
  match s with
  | EmptyString => None
  | String c r =>
      match ext_scan r with
      | Some e => Some e
      | None =>
          if Ascii.eqb c "." then Some s
          else if Ascii.eqb c "/" then Some ""
          else None
      end
  end.

Definition Ext (path : string) : string := default "" (ext_scan path).

(** [filepath.Clean]: collapse separators, drop ["."], resolve [".."]. *)
Fixpoint clean_elems (rooted : bool) (stack : list string) (elems : list string)
  : list string :=
  match elems with
  | [] => rev stack
  | e :: r =>
      if String.eqb e "" || String.eqb e "." then clean_elems rooted stack r
      else if String.eqb e ".." then
        match stack with
        | top :: below =>
            if String.eqb top ".." then clean_elems rooted (e :: stack) r
            else clean_elems rooted below r
        | [] =>
            if rooted then clean_elems rooted [] r
            else clean_elems rooted [e] r
        end
      else clean_elems rooted (e :: stack) r
  end.

Definition Clean (path : string) : string :=
  if String.eqb path "" then "."
  else
    let rooted := HasPrefix path "/" in
    let body := Strings.Join (clean_elems rooted [] (split_slash path)) "/" in
    if rooted then "/" ++ body
    else if String.eqb body "" then "." else body.

(** [filepath.Join]: leading empty elements are skipped, the rest is joined
    with the separator and cleaned. *)
Fixpoint Join (elem : list string) : string :=
  match elem with
  | [] => ""
  | e :: r =>
      if String.eqb e "" then Join r
      else Clean (Strings.Join elem "/")
  end.

(** The bytes after the last separator, and the prefix up to and including it. *)
Fixpoint last_elem (s : string) : string :=
  match s with
  | EmptyString => ""
  | String c r =>
      if Contains_byte r "/" then last_elem r
      else if Ascii.eqb c "/" then r else s
  end.

Definition dir_prefix (s : string) : string :=
  take (String.length s - String.length (last_elem s)) s.

Fixpoint strip_trailing_slashes (s : string) : string :=
  match s with
  | EmptyString => ""
  | String c r =>
      match strip_trailing_slashes r with
      | EmptyString => if Ascii.eqb c "/" then "" else String c ""
      | r' => String c r'
      end
  end.

Definition Base (path : string) : string :=
  if String.eqb path "" then "."
  else
    let p := last_elem (strip_trailing_slashes path) in
    if String.eqb p "" then "/" else p.

Definition Dir (path : string) : string := Clean (dir_prefix path).

End Filepath.

(** ** [filepath.Match] (Unix): shell globs [*], [?], [[...]], [\\x] *)

Module Glob.
Import Strings.

Definition backslash : ascii := ascii_of_nat 92.

Fixpoint strip_stars (p : string) : string :=
  match p with
  | String c r => if Ascii.eqb c "*" then strip_stars r else p
  | EmptyString => p
  end.

(** The chunk up to the next star outside a character class, and the rest. *)
Fixpoint scan (p : string) (inrange : bool) : string * string :=
  match p with
  | EmptyString => ("", "")
  | String c r =>
      if Ascii.eqb c backslash then
        match r with
        | EmptyString => (String c "", "")
        | String d r' => let '(a, b) := scan r' inrange in (String c (String d a), b)
        end
      else if Ascii.eqb c "[" then let '(a, b) := scan r true in (String c a, b)
      else if Ascii.eqb c "]" then let '(a, b) := scan r false in (String c a, b)
      else if Ascii.eqb c "*" then
        if inrange then let '(a, b) := scan r inrange in (String c a, b)
        else ("", p)
      else let '(a, b) := scan r inrange in (String c a, b)
  end.

Definition scanChunk (pattern : string) : bool * string * string :=
  let star := HasPrefix pattern "*" in
  let '(chunk, rest) := scan (strip_stars pattern) false in
  (star, chunk, rest).

(** [getEsc]: one (possibly escaped) byte of a character class; [None] is
    [ErrBadPattern]. *)
Definition getEsc (chunk : string) : option (ascii * string) :=
  match chunk with
  | EmptyString => None
  | String c r =>
      if Ascii.eqb c "-" || Ascii.eqb c "]" then None
      else
        let chunk1 := if Ascii.eqb c backslash then r else chunk in
        match chunk1 with
        | EmptyString => None
        | String r0 nchunk =>
            if String.eqb nchunk "" then None else Some (r0, nchunk)
        end
  end.

Definition byte_le (a b : ascii) : bool := (nat_of_ascii a <=? nat_of_ascii b)%nat.

(** The loop over the ranges of one class; returns whether [r] matched and
    the chunk after the closing bracket. *)
Fixpoint ranges (fuel : nat) (chunk : string) (r : ascii) (matched : bool)
    (nrange : nat) : option (bool * string) :=
  match fuel with
  | O => None
  | S fuel' =>
      let body :=
        match getEsc chunk with
        | None => None
        | Some (lo, chunk1) =>
            match chunk1 with
            | String c chunk2 =>
                if Ascii.eqb c "-" then
                  match getEsc chunk2 with
                  | None => None
                  | Some (hi, chunk3) =>
                      ranges fuel' chunk3 r
                        (matched || (byte_le lo r && byte_le r hi)) (S nrange)
                  end
                else
                  ranges fuel' chunk1 r
                    (matched || (byte_le lo r && byte_le r lo)) (S nrange)
            | EmptyString => None
            end
        end in
      match chunk with
      | String c rest =>
          if Ascii.eqb c "]" && (0 <? nrange)%nat then Some (matched, rest)
          else body
      | EmptyString => body
      end
  end.

Inductive chunk_result :=
  | ChunkErr                    (* ErrBadPattern *)
  | ChunkFail                   (* ok = false *)
  | ChunkOk (rest : string).    (* ok = true, the unmatched rest of s *)

Fixpoint matchChunk_loop (fuel : nat) (chunk s : string) (failed : bool)
  : chunk_result :=
  match chunk with
  | EmptyString => if failed then ChunkFail else ChunkOk s
  | String c0 chunk' =>
      match fuel with
      | O => ChunkErr
      | S fuel' =>
          let failed := failed || String.eqb s "" in
          if Ascii.eqb c0 "[" then
            let '(r, s1) :=
              match failed, s with
              | false, String h t => (h, t)
              | _, _ => (Ascii.zero, s)
              end in
            let '(negated, chunk1) :=
              match chunk' with
              | String n c1 => if Ascii.eqb n "^" then (true, c1) else (false, chunk')
              | EmptyString => (false, chunk')
              end in
            match ranges (S (String.length chunk1)) chunk1 r false 0 with
            | None => ChunkErr
            | Some (m, chunk2) =>
                matchChunk_loop fuel' chunk2 s1 (failed || Bool.eqb m negated)
            end
          else if Ascii.eqb c0 "?" then
            match failed, s with
            | false, String h t => matchChunk_loop fuel' chunk' t (Ascii.eqb h "/")
            | _, _ => matchChunk_loop fuel' chunk' s failed
            end
          else
            let lit := if Ascii.eqb c0 backslash then chunk' else chunk in
            match lit with
            | EmptyString => ChunkErr
            | String l rest =>
                match failed, s with
                | false, String h t => matchChunk_loop fuel' rest t (negb (Ascii.eqb l h))
                | _, _ => matchChunk_loop fuel' rest s failed
                end
            end
      end
  end.

Definition matchChunk (chunk s : string) : chunk_result :=
  matchChunk_loop (S (String.length chunk)) chunk s false.

(** After a star: try the chunk at every later position up to a separator. *)
Fixpoint star_scan (chunk : string) (last : bool) (name : string) : chunk_result :=
  match name with
  | EmptyString => ChunkFail
  | String c rest =>
      if Ascii.eqb c "/" then ChunkFail
      else
        match matchChunk chunk rest with
        | ChunkOk t =>
            if last && negb (String.eqb t "") then star_scan chunk last rest
            else ChunkOk t
        | ChunkErr => ChunkErr
        | ChunkFail => star_scan chunk last rest
        end
  end.

(** The well-formedness check of the remaining pattern before a plain
    [false] is returned. *)
Fixpoint rest_bad (fuel : nat) (pattern : string) : bool :=
  match fuel with
  | O => false
  | S fuel' =>
      if String.eqb pattern "" then false
      else
        let '(_, chunk, rest) := scanChunk pattern in
        match matchChunk chunk "" with
        | ChunkErr => true
        | _ => rest_bad fuel' rest
        end
  end.

(** Result: [(matched, err)], [err = true] for [ErrBadPattern]. *)
Fixpoint Match_loop (fuel : nat) (pattern name : string) : bool * bool :=
  if String.eqb pattern "" then (String.eqb name "", false)
  else
    match fuel with
    | O => (false, true)
    | S fuel' =>
        let '(star, chunk, rest) := scanChunk pattern in
        if star && String.eqb chunk "" then (negb (Contains_byte name "/"), false)
        else
          let last := String.eqb rest "" in
          let retry :=
            if star then
              match star_scan chunk last name with
              | ChunkOk t => Match_loop fuel' rest t
              | ChunkErr => (false, true)
              | ChunkFail => (false, rest_bad fuel' rest)
              end
            else (false, rest_bad fuel' rest) in
          match matchChunk chunk name with
          | ChunkOk t =>
              if String.eqb t "" || negb last then Match_loop fuel' rest t else retry
          | ChunkErr => (false, true)
          | ChunkFail => retry
          end
    end.

Definition Match (pattern name : string) : bool * bool :=
  Match_loop (S (String.length pattern)) pattern name.

End Glob.

(** ** The operating system as the program sees it *)

Module OS.

(** The system calls of [main.go] whose error result the code looks at. *)
Inductive Op :=
  | OpRename (oldpath newpath : string)
  | OpOpen (path : string)
  | OpMkdirAll (dir : string)
  | OpCreate (path : string)
  | OpCopy (dst src : string)
  | OpSync (path : string)
  | OpClose (path : string)
  | OpRemove (path : string)
  | OpReadFile (path : string).

(** One line of [log.Printf]. *)
Inductive LogLine :=
  | LogSkipIgnored (base : string)
  | LogSkipNotStable (base : string)
  | LogNoRule (base : string)
  | LogEmptyDest (rule base : string)
  | LogMkdirFailed
  | LogDeleteDuplicateFailed
  | LogDeletedDuplicate (base rule : string)
  | LogSkipExists (base rule : string)
  | LogMoveFailed
  | LogMoved (base dest rule : string)
  | LogCopyFailed
  | LogCopied (base dest rule : string)
  | LogUploadFailed
  | LogUploaded (base remote : string).

(** What the outside world can observe of a run, oldest first.  A system
    call is recorded with its outcome and the files as they are after it. *)
Inductive Event :=
  | EvSys (o : Op) (ok : bool) (after : gmap string string)
  | EvLog (line : LogLine)
  | EvPoll (path : string) (size : option Z)
  | EvNotify (title message : string)
  | EvUpload (remote : string) (data : string) (ok : bool).

(** [files] maps a path to the bytes of the regular file there, [dirs] is
    the set of directories, [processing] is the global [sync.Map] of
    [main.go] (its values, time stamps, are never read), [now] is the
    monotonic clock in nanoseconds. *)
Record World := mkWorld {
  files : gmap string string;
  dirs : gset string;
  processing : gset string;
  now : Z;
  trace : list Event
}.

Record FileInfo := mkFileInfo { Size : Z; IsDir : bool }.

Inductive Errno :=
  | EFailed (o : Op)        (* the system call [o] returned an error *)
  | ENotExist (path : string)
  | ENoHome                 (* [os.UserHomeDir] failed *)
  | ENotStable              (* "file did not stabilize within 5 minutes" *)
  | EUploadFailed           (* the WebDAV server refused the write *)
  | EUploadTimeout.         (* "webdav upload timed out" *)

(** A Go [error]: [None] is [nil]. *)
Definition error := option Errno.

Definition M (A : Type) : Type := World -> A * World.
Definition ret {A} (a : A) : M A := fun w => (a, w).
Definition bind {A B} (m : M A) (k : A -> M B) : M B :=
  fun w => let '(a, w') := m w in k a w'.

Definition emit (e : Event) : M unit :=
  fun w => (tt, mkWorld (files w) (dirs w) (processing w) (now w) (trace w ++ [e])).

Definition set_files (f : gmap string string) : M unit :=
  fun w => (tt, mkWorld f (dirs w) (processing w) (now w) (trace w)).

Definition set_dirs (d : gset string) : M unit :=
  fun w => (tt, mkWorld (files w) d (processing w) (now w) (trace w)).

Definition set_processing (p : gset string) : M unit :=
  fun w => (tt, mkWorld (files w) (dirs w) p (now w) (trace w)).

Definition set_now (t : Z) : M unit :=
  fun w => (tt, mkWorld (files w) (dirs w) (processing w) t (trace w)).

Definition get : M World := fun w => (w, w).

End OS.

Import OS.

Declare Scope go_scope.
Delimit Scope go_scope with go.
Notation "x <- m ;; k" := (bind m (fun x => k))
  (at level 100, m at next level, right associativity) : go_scope.
Notation "m ;;; k" := (bind m (fun _ => k))
  (at level 100, right associativity) : go_scope.
Local Open Scope go_scope.

(** ** [main.go] *)

Record Rule := mkRule {
  Name : string;
  Patterns : list string;
  Extensions : list string;
  MIMEPrefixes : list string;
  Action : string;
  Dest : string;
  SkipDuplicates : bool;
  WebDAVUpload : bool;
  WebDAVPath : string
}.

Record WebDAVConfig := mkWebDAVConfig {
  URL : string;
  Username : string;
  Password : string;
  SkipTLSVerify : bool;
  TimeoutSec : Z
}.

Record Config := mkConfig {
  WatchDir : string;
  Rules : list Rule;
  IgnoreExts : list string;
  SettleMillis : Z;
  PollMillis : Z;
  WebDAV : WebDAVConfig;
  LogJSON : bool;
  CreateDestDirs : bool;
  Notifications : bool
}.

(** What the program takes from its environment. *)
Record Env := mkEnv {
  (** [os.UserHomeDir]: [None] when it returns an error. *)
  UserHomeDir : option string;
  (** [mime.TypeByExtension], [""] for an unknown extension. *)
  TypeByExtension : string -> string;
  (** [http.DetectContentType] on the first bytes of a file. *)
  DetectContentType : string -> string;
  (** Whether a system call returns an error although its target exists. *)
  faulty : Op -> bool;
  (** How many bytes [io.Copy] has written when it fails. *)
  copy_cut : nat;
  (** The size [os.Stat] reports at the n-th poll of a path that another
      process is still writing ([None]: the file is gone). *)
  observe : string -> nat -> option Z;
  (** The time one poll takes besides its sleep, in nanoseconds. *)
  tick : positive;
  (** The size [os.Stat] reports for a directory. *)
  dir_size : Z;
  (** [runtime.GOOS == "darwin"]. *)
  darwin : bool;
  (** Whether the WebDAV server accepts a write, and in time. *)
  dav_accepts : string -> bool;
  dav_in_time : string -> bool
}.

Section Program.

Variable env : Env.

(** *** System calls *)

(** [os.Stat] fails exactly when nothing exists at the path. *)
Definition os_Stat (w : World) (path : string) : option FileInfo :=
  match files w !! path with
  | Some d => Some (mkFileInfo (Z.of_nat (String.length d)) false)
  | None =>
      if decide (path ∈ dirs w) then Some (mkFileInfo (dir_size env) true)
      else None
  end.

Definition sys (o : Op) (after : option (gmap string string)) : M error :=
  w <- get;;
  match after with
  | Some f => set_files f;;; emit (EvSys o true f);;; ret None
  | None => emit (EvSys o false (files w));;; ret (Some (EFailed o))
  end.

Definition os_Rename (oldpath newpath : string) : M error :=
  w <- get;;
  sys (OpRename oldpath newpath)
    (if faulty env (OpRename oldpath newpath) then None
     else if decide (newpath ∈ dirs w) then None
     else d ← files w !! oldpath; Some (<[newpath := d]> (delete oldpath (files w)))).

(** A file handle is the path it was opened at. *)
Definition os_Open (path : string) : M error :=
  w <- get;;
  ret (if faulty env (OpOpen path) then Some (EFailed (OpOpen path))
       else match os_Stat w path with
            | Some _ => None
            | None => Some (ENotExist path)
            end).

Definition os_Create (path : string) : M error :=
  w <- get;;
  sys (OpCreate path)
    (if faulty env (OpCreate path) then None
     else if decide (path ∈ dirs w) then None
     else Some (<[path := ""]> (files w))).

(** [io.Copy(df, sf)]: on failure the first [copy_cut] bytes are written. *)
Definition io_Copy (df sf : string) : M error :=
  w <- get;;
  match files w !! sf with
  | Some data =>
      if faulty env (OpCopy df sf) then
        set_files (<[df := Strings.take (copy_cut env) data]> (files w));;;
        sys (OpCopy df sf) None
      else sys (OpCopy df sf) (Some (<[df := data]> (files w)))
  | None => sys (OpCopy df sf) None
  end.

Definition file_Sync (path : string) : M error :=
  w <- get;;
  sys (OpSync path) (if faulty env (OpSync path) then None else Some (files w)).

Definition file_Close (path : string) : M error :=
  w <- get;;
  sys (OpClose path) (if faulty env (OpClose path) then None else Some (files w)).

Definition os_Remove (path : string) : M error :=
  w <- get;;
  if faulty env (OpRemove path) then sys (OpRemove path) None
  else if bool_decide (is_Some (files w !! path)) then
    sys (OpRemove path) (Some (delete path (files w)))
  else if decide (path ∈ dirs w) then
    set_dirs (dirs w ∖ {[path]});;; sys (OpRemove path) (Some (files w))
  else sys (OpRemove path) None.

(** The directory and the directories above it. *)
Fixpoint ancestors (fuel : nat) (dir : string) : list string :=
  match fuel with
  | O => [dir]
  | S fuel' =>
      let up := Filepath.Dir dir in
      if String.eqb up dir then [dir] else dir :: ancestors fuel' up
  end.

Definition os_MkdirAll (dir : string) : M error :=
  w <- get;;
  let chain := ancestors (String.length dir) dir in
  if faulty env (OpMkdirAll dir) then sys (OpMkdirAll dir) None
  else if existsb (fun d => bool_decide (is_Some (files w !! d))) chain then
    sys (OpMkdirAll dir) None
  else set_dirs (dirs w ∪ list_to_set chain);;; sys (OpMkdirAll dir) (Some (files w)).

(** [time.Sleep]. *)
Definition time_Sleep (d : Z) : M unit :=
  w <- get;; set_now (now w + Z.max d 0).

(** *** [expandHome] *)

Definition expandHome (p : string) : string * error :=
  if String.eqb p "" then (p, None)
  else if Strings.HasPrefix p "~" then
    match UserHomeDir env with
    | None => ("", Some ENoHome)
    | Some home =>
        if String.eqb p "~" then (home, None)
        else (Filepath.Join [home; Strings.TrimPrefix p "~/"], None)
    end
  else (p, None).

(** *** Classifier *)

Definition detectMIME (w : World) (path : string) : string :=
  let ext := Strings.ToLower (Filepath.Ext path) in
  let mt := if String.eqb ext "" then "" else TypeByExtension env ext in
  if negb (String.eqb mt "") then mt
  else
    match fst (os_Open path w) with
    | Some _ => ""
    | None =>
        let data := default "" (files w !! path) in
        DetectContentType env (Strings.take 512 data)
    end.

Definition hasIgnoredExt (path : string) (ignores : list string) : bool :=
  let ext := Strings.ToLower (Filepath.Ext path) in
  existsb (fun ig => Strings.EqualFold ext ig) ignores.

Definition anyPatternMatch (name : string) (patterns : list string) : bool :=
  if (length patterns =? 0)%nat then false
  else existsb (fun g => fst (Glob.Match g name)) patterns.

Definition extMatches (name : string) (exts : list string) : bool :=
  if (length exts =? 0)%nat then false
  else
    let ext := Strings.TrimPrefix (Strings.ToLower (Filepath.Ext name)) "." in
    existsb (fun e => Strings.EqualFold e ext) exts.

Definition mimePrefixMatches (mt : string) (prefixes : list string) : bool :=
  if (length prefixes =? 0)%nat || String.eqb mt "" then false
  else existsb (fun p => Strings.HasPrefix mt p) prefixes.

(** The condition of the [if] in the loop of [chooseRule]. *)
Definition ruleApplies (base mt : string) (r : Rule) : bool :=
  anyPatternMatch base (Patterns r)
  || extMatches base (Extensions r)
  || mimePrefixMatches mt (MIMEPrefixes r).

(** The loop [for i := range rules]; the result is the index with the rule
    there (Go returns the pointer [&rules[i]]). *)
Fixpoint chooseRule_loop (base mt : string) (i : nat) (rules : list Rule)
  : option (nat * Rule) :=
  match rules with
  | [] => None
  | r :: rest =>
      if ruleApplies base mt r then Some (i, r)
      else chooseRule_loop base mt (S i) rest
  end.

Definition chooseRule (w : World) (path : string) (rules : list Rule)
  : option (nat * Rule) :=
  let base := Filepath.Base path in
  let mt := detectMIME w path in
  chooseRule_loop base mt 0 rules.

(** *** Stability detector *)

(** [5 * time.Minute] in nanoseconds. *)
Definition safety : Z := 5 * 60 * 1000000000.

(** [int64] arithmetic of [time.Duration]. *)
Definition wrap64 (z : Z) : Z := (z + 2 ^ 63) mod 2 ^ 64 - 2 ^ 63.

(** The [os.Stat] of one poll: the size the writer has reached, after
    [tick] nanoseconds. *)
Definition poll_Stat (path : string) (n : nat) : M (option Z) :=
  w <- get;;
  set_now (now w + Z.pos (tick env));;;
  emit (EvPoll path (observe env path n));;;
  ret (observe env path n).

(** The [for time.Now().Before(deadline)] loop; [n] counts the polls made
    so far.  [None] stands for a loop that is still running when the fuel
    is used up. *)
Fixpoint waitLoop (fuel : nat) (path : string) (settle poll deadline : Z)
    (n : nat) (lastSize stableFor : Z) : M (option error) :=
  match fuel with
  | O => ret None
  | S fuel' =>
      w <- get;;
      if now w <? deadline then
        st <- poll_Stat path n;;
        match st with
        | None => ret (Some (Some (ENotExist path)))
        | Some size =>
            if size =? lastSize then
              let stableFor := wrap64 (stableFor + poll) in
              if stableFor >=? settle then ret (Some None)
              else
                time_Sleep poll;;;
                waitLoop fuel' path settle poll deadline (S n) lastSize stableFor
            else
              time_Sleep poll;;;
              waitLoop fuel' path settle poll deadline (S n) size 0
        end
      else ret (Some (Some ENotStable))
  end.

(** Every round of the loop takes at least [tick], so this many rounds
    reach the deadline. *)
Definition rounds : nat := S (Z.to_nat (safety / Z.pos (tick env))).

Definition waitUntilStable (path : string) (settle poll : Z) : M error :=
  w <- get;;
  let deadline := now w + safety in
  r <- waitLoop (S rounds) path settle poll deadline 0 (-1) 0;;
  ret (default (Some ENotStable) r).

(** *** Transfer engine *)

Definition ensureDir (dir : string) : M error := os_MkdirAll dir.

Definition atomicMove (src dst : string) : M error :=
  err <- os_Rename src dst;;
  match err with
  | None => ret None
  | Some _ =>
      err <- os_Open src;;
      match err with
      | Some e => ret (Some e)
      | None =>
          r <- (errDir <- ensureDir (Filepath.Dir dst);;
                match errDir with
                | Some e => ret (Some e)
                | None =>
                    let tmp := dst ++ ".tmp" in
                    err <- os_Create tmp;;
                    match err with
                    | Some e => ret (Some e)
                    | None =>
                        err <- io_Copy tmp src;;
                        match err with
                        | Some e => file_Close tmp;;; os_Remove tmp;;; ret (Some e)
                        | None =>
                            err <- file_Sync tmp;;
                            match err with
                            | Some e => file_Close tmp;;; os_Remove tmp;;; ret (Some e)
                            | None =>
                                err <- file_Close tmp;;
                                match err with
                                | Some e => os_Remove tmp;;; ret (Some e)
                                | None =>
                                    err <- os_Rename tmp dst;;
                                    match err with
                                    | Some e => os_Remove tmp;;; ret (Some e)
                                    | None => os_Remove src
                                    end
                                end
                            end
                        end
                    end
                end);;
          file_Close src;;;
          ret r
      end
  end.

Definition copyTo (src dst : string) : M error :=
  err <- os_Open src;;
  match err with
  | Some e => ret (Some e)
  | None =>
      r <- (errDir <- ensureDir (Filepath.Dir dst);;
            match errDir with
            | Some e => ret (Some e)
            | None =>
                err <- os_Create dst;;
                match err with
                | Some e => ret (Some e)
                | None =>
                    err <- io_Copy dst src;;
                    match err with
                    | Some e => file_Close dst;;; ret (Some e)
                    | None =>
                        err <- file_Sync dst;;
                        match err with
                        | Some e => file_Close dst;;; ret (Some e)
                        | None => file_Close dst
                        end
                    end
                end
            end);;
      file_Close src;;;
      ret r
  end.

(** [fmt.Sprintf("%s (%d)%s", stem, i, ext)] under [dir]. *)
Definition numbered (dir stem ext : string) (i : nat) : string :=
  Filepath.Join [dir; stem ++ " (" ++ Strings.Itoa i ++ ")" ++ ext].

(** The loop [for i := 2; i < 10_000; i++] of [uniquePath], with [n] rounds
    left and the counter at [i]. *)
Fixpoint uniquePath_loop (w : World) (dst dir stem ext : string) (n i : nat)
  : string :=
  match n with
  | O => dst ++ ".dup"
  | S n' =>
      let candidate := numbered dir stem ext i in
      match os_Stat w candidate with
      | None => candidate
      | Some _ => uniquePath_loop w dst dir stem ext n' (S i)
      end
  end.

Definition uniquePath (w : World) (dst : string) : string :=
  match os_Stat w dst with
  | None => dst
  | Some _ =>
      let dir := Filepath.Dir dst in
      let base := Filepath.Base dst in
      let ext := Filepath.Ext base in
      let stem := Strings.TrimSuffix base ext in
      uniquePath_loop w dst dir stem ext (10000 - 2) 2
  end.

(** The loop over the numbered variants in [fileExistsWithSameSize]. *)
Fixpoint sameSize_loop (w : World) (destDir stem ext : string) (srcSize : Z)
    (n i : nat) : bool :=
  match n with
  | O => false
  | S n' =>
      match os_Stat w (numbered destDir stem ext i) with
      | None => false
      | Some dstStat =>
          if (Size dstStat =? srcSize) && (srcSize >? 0) then true
          else sameSize_loop w destDir stem ext srcSize n' (S i)
      end
  end.

Definition fileExistsWithSameSize (w : World) (srcPath destDir : string) : bool :=
  match os_Stat w srcPath with
  | None => false
  | Some srcStat =>
      let srcSize := Size srcStat in
      let baseName := Filepath.Base srcPath in
      let candidate := Filepath.Join [destDir; baseName] in
      let exact :=
        match os_Stat w candidate with
        | Some dstStat => (Size dstStat =? srcSize) && (srcSize >? 0)
        | None => false
        end in
      if exact then true
      else
        let ext := Filepath.Ext baseName in
        let stem := Strings.TrimSuffix baseName ext in
        sameSize_loop w destDir stem ext srcSize (10000 - 2) 2
  end.

(** *** Collaborators: notification and upload *)

(** Only on macOS is [osascript] started; the script text is left out. *)
Definition notifyUser (title message : string) : M unit :=
  if darwin env then emit (EvNotify title message) else ret tt.

(** The race of [c.Write] against [time.After(timeout)]. *)
Definition davUpload (localPath remotePrefix : string) (timeout : Z) : M error :=
  w <- get;;
  match (if faulty env (OpReadFile localPath) then None else files w !! localPath) with
  | None => ret (Some (EFailed (OpReadFile localPath)))
  | Some data =>
      let rp := Filepath.Join [remotePrefix; Filepath.Base localPath] in
      if dav_in_time env rp then
        emit (EvUpload rp data (dav_accepts env rp));;;
        ret (if dav_accepts env rp then None else Some EUploadFailed)
      else ret (Some EUploadTimeout)
  end.

(** *** Dispatch coordinator *)

Definition log (l : LogLine) : M unit := emit (EvLog l).

(** [processing.LoadOrStore(path, time.Now())]: whether the key was there. *)
Definition LoadOrStore (path : string) : M bool :=
  w <- get;;
  if decide (path ∈ processing w) then ret true
  else set_processing ({[path]} ∪ processing w);;; ret false.

(** [processing.Delete(path)]. *)
Definition Delete (path : string) : M unit :=
  w <- get;; set_processing (processing w ∖ {[path]}).

(** The part of [handleFile] from the choice of the destination path on:
    the transfer, the notification and the upload. *)
Definition transfer (path : string) (cfg : Config) (dav : bool) (r : Rule)
    (destDir : string) : M unit :=
  let base := Filepath.Base path in
  w <- get;;
  let dst0 := Filepath.Join [destDir; base] in
  let dst := match os_Stat w dst0 with
             | Some _ => uniquePath w dst0
             | None => dst0
             end in
  done <-
    (if String.eqb (Action r) "move" then
       err <- atomicMove path dst;;
       match err with
       | Some _ => log LogMoveFailed;;; ret false
       | None =>
           log (LogMoved base destDir (Name r));;;
           (if Notifications cfg
            then notifyUser "downwatch" ("Moved " ++ base ++ " to " ++ destDir)
            else ret tt);;;
           ret true
       end
     else if String.eqb (Action r) "copy" then
       err <- copyTo path dst;;
       match err with
       | Some _ => log LogCopyFailed;;; ret false
       | None =>
           log (LogCopied base destDir (Name r));;;
           (if Notifications cfg
            then notifyUser "downwatch" ("Copied " ++ base ++ " to " ++ destDir)
            else ret tt);;;
           ret true
       end
     else ret true);;
  if done && WebDAVUpload r && dav then
    let timeout := wrap64 (TimeoutSec (WebDAV cfg) * 1000000000) in
    err <- davUpload dst (WebDAVPath r) timeout;;
    match err with
    | Some _ => log LogUploadFailed
    | None => log (LogUploaded (Filepath.Base dst) (WebDAVPath r))
    end
  else ret tt.

(** The part of [handleFile] from the duplicate check on, once the rule
    and its destination directory are known. *)
Definition dispatchRule (path : string) (cfg : Config) (dav : bool) (r : Rule)
    (destDir : string) : M unit :=
  let base := Filepath.Base path in
  w <- get;;
  if SkipDuplicates r then
    if fileExistsWithSameSize w path destDir then
      if String.eqb (Action r) "move" then
        err <- os_Remove path;;
        match err with
        | Some _ => log LogDeleteDuplicateFailed
        | None => log (LogDeletedDuplicate base (Name r))
        end
      else log (LogSkipExists base (Name r))
    else transfer path cfg dav r destDir
  else transfer path cfg dav r destDir.

(** [handleFile] between the claim of the path and its release. *)
Definition handleFile_body (path : string) (cfg : Config) (dav : bool)
    (skipStabilityCheck : bool) : M unit :=
  let base := Filepath.Base path in
  w <- get;;
  match os_Stat w path with
  | None => ret tt
  | Some st =>
      if IsDir st then ret tt
      else if hasIgnoredExt path (IgnoreExts cfg) then log (LogSkipIgnored base)
      else
        err <- (if skipStabilityCheck then ret None
                else
                  let settle := wrap64 (SettleMillis cfg * 1000000) in
                  let poll := wrap64 (PollMillis cfg * 1000000) in
                  waitUntilStable path settle poll);;
        match err with
        | Some _ => log (LogSkipNotStable base)
        | None =>
            w <- get;;
            match chooseRule w path (Rules cfg) with
            | None => log (LogNoRule base)
            | Some (_, r) =>
                let destDir := Dest r in
                if String.eqb destDir "" then log (LogEmptyDest (Name r) base)
                else
                  err <- (if CreateDestDirs cfg then ensureDir destDir else ret None);;
                  match err with
                  | Some _ => log LogMkdirFailed
                  | None => dispatchRule path cfg dav r destDir
                  end
            end
        end
  end.

Definition handleFile (path : string) (cfg : Config) (dav : bool)
    (skipStabilityCheck : bool) : M unit :=
  exists_ <- LoadOrStore path;;
  if exists_ then ret tt
  else
    handleFile_body path cfg dav skipStabilityCheck;;;
    Delete path.

End Program.

(** ** Concrete inputs used below *)

Module Examples.

(** A Linux host: [.pdf] is in the MIME table, sniffing says plain text,
    no system call fails, one poll costs a millisecond. *)
Definition quiet : Env := {|
  UserHomeDir := Some "/home/bob";
  TypeByExtension := fun e => if String.eqb e ".pdf" then "application/pdf" else "";
  DetectContentType := fun _ => "text/plain; charset=utf-8";
  faulty := fun _ => false;
  copy_cut := 0;
  observe := fun _ _ => Some 10;
  tick := 1000000;
  dir_size := 4096;
  darwin := false;
  dav_accepts := fun _ => true;
  dav_in_time := fun _ => true
|}.

Definition world (fs : list (string * string)) (ds : list string) : World :=
  mkWorld (list_to_map fs) (list_to_set ds) ∅ 0 [].

(** A destination where [a.txt], every numbered variant up to 9999 and
    [a.txt.dup] are all taken. *)
Definition crowded_names : list string :=
  "/out/a.txt" :: "/out/a.txt.dup" :: map (numbered "/out" "a" ".txt") (seq 2 (10000 - 2)).

Definition crowded : World :=
  world (map (fun p => (p, "x")) crowded_names) ["/out"].

(** [report.pdf] and [report (2).pdf] are taken, [report (3).pdf] is free. *)
Definition twice : World :=
  world [("/out/report.pdf", "a"); ("/out/report (2).pdf", "b")] ["/out"].

(** [a (3).txt] of the size of the source is in the destination, but
    neither [a.txt] nor [a (2).txt]. *)
Definition gap : World :=
  world [("/in/a.txt", "hello"); ("/out/a (3).txt", "world")] ["/in"; "/out"].

(** The same host with a file that grows by a byte between any two polls. *)
Definition growing : Env := {|
  UserHomeDir := UserHomeDir quiet;
  TypeByExtension := TypeByExtension quiet;
  DetectContentType := DetectContentType quiet;
  faulty := faulty quiet;
  copy_cut := copy_cut quiet;
  observe := fun _ n => Some (Z.of_nat n);
  tick := tick quiet;
  dir_size := dir_size quiet;
  darwin := darwin quiet;
  dav_accepts := dav_accepts quiet;
  dav_in_time := dav_in_time quiet
|}.

Definition millisecond : Z := 1000000.
Definition minute : Z := 60 * 1000 * millisecond.

Definition idle : World := world [("/in/f", "0123456789")] ["/in"].

(** Source and destination on different volumes, and a write error after
    two bytes. *)
Definition crossdev : Env := {|
  UserHomeDir := UserHomeDir quiet;
  TypeByExtension := TypeByExtension quiet;
  DetectContentType := DetectContentType quiet;
  faulty := fun o => match o with
                     | OpRename "/in/a.txt" _ => true
                     | OpCopy _ _ => true
                     | _ => false
                     end;
  copy_cut := 2;
  observe := observe quiet;
  tick := tick quiet;
  dir_size := dir_size quiet;
  darwin := darwin quiet;
  dav_accepts := dav_accepts quiet;
  dav_in_time := dav_in_time quiet
|}.

Definition inbox : World := world [("/in/a.txt", "hello")] ["/in"; "/out"].

(** A copy rule without [skip_duplicates], and a watch directory whose
    [a.txt] is already in the destination with the same size. *)
Definition copy_rule : Rule := {|
  Name := "Texts"; Patterns := []; Extensions := ["txt"]; MIMEPrefixes := [];
  Action := "copy"; Dest := "/out"; SkipDuplicates := false;
  WebDAVUpload := false; WebDAVPath := ""
|}.

Definition move_rule : Rule := {|
  Name := "Texts"; Patterns := []; Extensions := ["txt"]; MIMEPrefixes := [];
  Action := "move"; Dest := "/out"; SkipDuplicates := true;
  WebDAVUpload := false; WebDAVPath := ""
|}.

Definition config (rules : list Rule) : Config := {|
  WatchDir := "/in"; Rules := rules;
  IgnoreExts := [".crdownload"; ".download"; ".part"; ".partial"];
  SettleMillis := 1500; PollMillis := 250;
  WebDAV := mkWebDAVConfig "" "" "" false 30;
  LogJSON := false; CreateDestDirs := true; Notifications := true
|}.

Definition restarted : World :=
  world [("/in/a.txt", "hello"); ("/out/a.txt", "world")] ["/in"; "/out"].

End Examples.

(** ** Properties the specification names *)

(** A matcher of a name against a list of criteria is case-insensitive when
    inputs that differ only in the case of letters get the same answer. *)
Definition case_insensitive (f : string -> list string -> bool) : Prop :=
  forall s s' l l',
    Strings.EqualFold s s' = true ->
    Forall2 (fun a b => Strings.EqualFold a b = true) l l' ->
    f s l = f s' l'.







(** The path [uniquePath] returns is free. *)
Definition returns_free (env : Env) (w : World) (dst : string) : Prop :=
  os_Stat env w (uniquePath env w dst) = None.

(** [os.Stat] finds an entry of [size] bytes at [p]. *)
Definition same_size (env : Env) (w : World) (p : string) (size : Z) : Prop :=
  exists st, os_Stat env w p = Some st /\ Size st = size.

(** A duplicate in the words of the specification: the base name or any of
    its numbered variants is in the destination directory with the size of
    the source, which is not zero. *)
Definition duplicate_claimed (env : Env) (w : World) (srcPath destDir : string)
  : Prop :=
  let baseName := Filepath.Base srcPath in
  let ext := Filepath.Ext baseName in
  let stem := Strings.TrimSuffix baseName ext in
  exists src, os_Stat env w srcPath = Some src /\ Size src > 0
    /\ (same_size env w (Filepath.Join [destDir; baseName]) (Size src)
        \/ exists i : nat, (2 <= i < 10000)%nat
             /\ same_size env w (numbered destDir stem ext i) (Size src)).

(** [ceil(settle/poll)] for a positive poll interval. *)
Definition ceil_div (settle poll : Z) : Z := (settle + poll - 1) / poll.

(** The wait declares the file stable and has polled it exactly [k] times,
    seeing [size] each time. *)
Definition stable_after (env : Env) (w : World) (path : string)
    (settle poll : Z) (size : Z) (k : nat) : Prop :=
  exists w', waitUntilStable env path settle poll w = (None, w')
    /\ trace w' = (trace w ++ repeat (EvPoll path (Some size)) k)%list.

(** Whatever a recorded state of the files in [evs] shows under [dst], it
    is what was there in [w] or all the bytes of the source: never a part
    of them. *)
Definition never_partial (w : World) (src dst : string) (evs : list Event) : Prop :=
  Forall (fun e =>
            match e with
            | EvSys _ _ after =>
                forall data, after !! dst = Some data ->
                  files w !! dst = Some data \/ files w !! src = Some data
            | _ => True
            end) evs.

(** ** Reasoning about runs *)

(** The world after a system call: new files and directories, one more
    run of events. *)
Definition upd (w : World) (f : gmap string string) (d : gset string)
    (evs : list Event) : World :=
  mkWorld f d (processing w) (now w) (trace w ++ evs).

(** [Q] holds of the result and the final world of running [m] in [w]. *)
Definition wp {A} (m : M A) (w : World) (Q : A -> World -> Prop) : Prop :=
  Q (fst (m w)) (snd (m w)).

(** C1 as the specification states it, for a run of [atomicMove]:
    the files are never seen with a part of the source under [dst]; when
    the first rename succeeds nothing else is done; and when the move
    fails the source is as it was and the temporary file is not left
    behind. *)
Definition move_outcome (env : Env) (w : World) (src dst : string) : Prop :=
  let err := fst (atomicMove env src dst w) in
  let w' := snd (atomicMove env src dst w) in
  exists evs,
    trace w' = (trace w ++ evs)%list
    /\ never_partial w src dst evs
    /\ (fst (os_Rename env src dst w) = None ->
        err = None
        /\ evs = [EvSys (OpRename src dst) true (files w')]
        /\ exists d, files w !! src = Some d
             /\ files w' = <[dst := d]> (delete src (files w)))
    /\ (err <> None ->
        files w' !! src = files w !! src
        /\ (files w' !! (dst ++ ".tmp") = None \/ files w' = files w)).

(** What a run of [atomicMove] does guarantee: as above, but the temporary
    file is known to be gone after a failure only when its removal, whose
    error the code discards, does not fail. *)
Definition move_guarantee (env : Env) (w : World) (src dst : string) : Prop :=
  let err := fst (atomicMove env src dst w) in
  let w' := snd (atomicMove env src dst w) in
  exists evs,
    trace w' = (trace w ++ evs)%list
    /\ never_partial w src dst evs
    /\ (fst (os_Rename env src dst w) = None ->
        err = None
        /\ evs = [EvSys (OpRename src dst) true (files w')]
        /\ exists d, files w !! src = Some d
             /\ files w' = <[dst := d]> (delete src (files w)))
    /\ (err <> None ->
        files w' !! src = files w !! src
        /\ (faulty env (OpRemove (dst ++ ".tmp")) = false ->
            files w' !! (dst ++ ".tmp") = None \/ files w' = files w)).

(** No rename and no removal among the events. *)
Definition in_place (evs : list Event) : Prop :=
  Forall (fun e =>
            match e with
            | EvSys (OpRename _ _) _ _ | EvSys (OpRemove _) _ _ => False
            | _ => True
            end) evs.

(** What a run of [copyTo] guarantees: it works on the destination name
    itself, changes no other file, and after success the destination has
    all the bytes of the source. *)
Definition copy_outcome (env : Env) (w : World) (src dst : string) : Prop :=
  let err := fst (copyTo env src dst w) in
  let w' := snd (copyTo env src dst w) in
  exists evs,
    trace w' = (trace w ++ evs)%list
    /\ in_place evs
    /\ (forall p, p <> dst -> files w' !! p = files w !! p)
    /\ (err = None -> is_Some (files w !! src) /\ files w' !! dst = files w !! src).

(** The discipline of the temporary file, for any transfer [m]: during the
    run the destination name never shows a part of the source. *)
Definition keeps_destination_whole (m : M error) (w : World) (src dst : string)
  : Prop :=
  exists evs,
    trace (snd (m w)) = (trace w ++ evs)%list /\ never_partial w src dst evs.

(** ** Concurrent dispatches *)

(** One goroutine running [handleFile]: before its [LoadOrStore], between
    the claim and the release, or returned. *)
Inductive Phase := Waiting | Working | Returned.

Record Task := mkTask {
  t_path : string;
  t_cfg : Config;
  t_dav : bool;
  t_skip : bool;
  t_phase : Phase
}.

Definition set_phase (t : Task) (ph : Phase) : Task :=
  mkTask (t_path t) (t_cfg t) (t_dav t) (t_skip t) ph.

(** Interleaving semantics.  [LoadOrStore] and [Delete] are atomic, as
    [sync.Map] makes them; between them a task changes the world by the
    system calls of [handleFile_body], none of which touches [processing],
    in any interleaving with the other tasks. *)
Inductive step : World * list Task -> World * list Task -> Prop :=
  | step_claim (i : nat) t w w' (ts : list Task) :
      ts !! i = Some t -> t_phase t = Waiting ->
      LoadOrStore (t_path t) w = (false, w') ->
      step (w, ts) (w', <[i := set_phase t Working]> ts)
  | step_reject (i : nat) t w w' (ts : list Task) :
      ts !! i = Some t -> t_phase t = Waiting ->
      LoadOrStore (t_path t) w = (true, w') ->
      step (w, ts) (w', <[i := set_phase t Returned]> ts)
  | step_work (i : nat) t w w' (ts : list Task) :
      ts !! i = Some t -> t_phase t = Working ->
      processing w' = processing w ->
      step (w, ts) (w', ts)
  | step_release (i : nat) t w w' (ts : list Task) :
      ts !! i = Some t -> t_phase t = Working ->
      Delete (t_path t) w = (tt, w') ->
      step (w, ts) (w', <[i := set_phase t Returned]> ts).

(** No two tasks are at work on the same path. *)
Definition exclusive (ts : list Task) : Prop :=
  forall (i j : nat) ti tj,
    i <> j -> ts !! i = Some ti -> ts !! j = Some tj ->
    t_phase ti = Working -> t_phase tj = Working ->
    t_path ti <> t_path tj.

(** The inductive invariant of the interleaving: exclusion, and a task at
    work holds the claim of its path. *)
Definition guarded (s : World * list Task) : Prop :=
  exclusive (snd s)
  /\ forall (i : nat) t, snd s !! i = Some t -> t_phase t = Working ->
       t_path t ∈ processing (fst s).

(** A computation that leaves [processing] alone. *)
Definition keeps {A} (m : M A) : Prop :=
  forall w, processing (snd (m w)) = processing w.

(** ** The rest of [main.go]: configuration and startup *)

(** [strings.TrimSpace] on ASCII white space (tab, line feed, vertical tab,
    form feed, carriage return, space). *)
Definition is_space (c : ascii) : bool :=
  let n := nat_of_ascii c in ((9 <=? n) && (n <=? 13) || (n =? 32))%nat.

Fixpoint trim_left (s : string) : string :=
  match s with
  | String c r => if is_space c then trim_left r else s
  | EmptyString => s
  end.

Fixpoint trim_right (s : string) : string :=
  match s with
  | EmptyString => ""
  | String c r =>
      match trim_right r with
      | EmptyString => if is_space c then "" else String c ""
      | r' => String c r'
      end
  end.

Definition TrimSpace (s : string) : string := trim_right (trim_left s).

Definition defaultConfig : Config := {|
  WatchDir := "~/Downloads";
  Rules := [];
  IgnoreExts := [".crdownload"; ".download"; ".part"; ".partial"];
  SettleMillis := 1500;
  PollMillis := 250;
  WebDAV := mkWebDAVConfig "" "" "" false 30;
  LogJSON := false;
  CreateDestDirs := true;
  Notifications := true
|}.

(** The zero value [Config{}] that [loadConfig] returns beside an error. *)
Definition zeroConfig : Config := {|
  WatchDir := ""; Rules := []; IgnoreExts := [];
  SettleMillis := 0; PollMillis := 0;
  WebDAV := mkWebDAVConfig "" "" "" false 0;
  LogJSON := false; CreateDestDirs := false; Notifications := false
|}.

Inductive ConfigError :=
  | CfgRead                               (* [os.ReadFile] failed *)
  | CfgDecode                             (* the YAML decoder refused the file *)
  | CfgHome                               (* [expandHome] failed *)
  | CfgAction (rule action : string).     (* "rule %q has invalid action %q" *)

Definition with_dest (r : Rule) (d : string) : Rule :=
  mkRule (Name r) (Patterns r) (Extensions r) (MIMEPrefixes r) (Action r) d
    (SkipDuplicates r) (WebDAVUpload r) (WebDAVPath r).

Definition with_action (r : Rule) (a : string) : Rule :=
  mkRule (Name r) (Patterns r) (Extensions r) (MIMEPrefixes r) a (Dest r)
    (SkipDuplicates r) (WebDAVUpload r) (WebDAVPath r).

(** The loop [for i := range cfg.Rules] that expands the destinations. *)
Fixpoint expandDests (env : Env) (rules : list Rule) : option (list Rule) :=
  match rules with
  | [] => Some []
  | r :: rest =>
      match expandHome env (Dest r) with
      | (_, Some _) => None
      | (d, None) =>
          match expandDests env rest with
          | None => None
          | Some rest' => Some (with_dest r d :: rest')
          end
      end
  end.

(** One round of the loop that sanitizes the rule actions. *)
Definition sanitizeAction (r : Rule) : ConfigError + Rule :=
  let a := Strings.ToLower (TrimSpace (Action r)) in
  let a := if String.eqb a "" then "move" else a in
  if negb (String.eqb a "move") && negb (String.eqb a "copy")
  then inl (CfgAction (Name r) (Action r))
  else inr (with_action r a).

Fixpoint sanitizeActions (rules : list Rule) : ConfigError + list Rule :=
  match rules with
  | [] => inr []
  | r :: rest =>
      match sanitizeAction r with
      | inl e => inl e
      | inr r' =>
          match sanitizeActions rest with
          | inl e => inl e
          | inr rest' => inr (r' :: rest')
          end
      end
  end.

(** [loadConfig].  [decode b cfg] is the YAML decoder run on the bytes [b]
    over the defaults [cfg], with unknown fields refused; [None] is its
    error. *)
Definition loadConfig (env : Env) (decode : string -> Config -> option Config)
    (w : World) (path : string) : Config * option ConfigError :=
  match (if faulty env (OpReadFile path) then None else files w !! path) with
  | None => (zeroConfig, Some CfgRead)
  | Some b =>
      match decode b defaultConfig with
      | None => (zeroConfig, Some CfgDecode)
      | Some cfg =>
          match expandHome env (WatchDir cfg) with
          | (_, Some _) => (zeroConfig, Some CfgHome)
          | (wd, None) =>
              match expandDests env (Rules cfg) with
              | None => (zeroConfig, Some CfgHome)
              | Some rules1 =>
                  match sanitizeActions rules1 with
                  | inl e => (zeroConfig, Some e)
                  | inr rules2 =>
                      let ignore :=
                        if (length (IgnoreExts cfg) =? 0)%nat
                        then IgnoreExts defaultConfig
                        else IgnoreExts cfg in
                      (mkConfig wd rules2 ignore (SettleMillis cfg) (PollMillis cfg)
                         (WebDAV cfg) (LogJSON cfg) (CreateDestDirs cfg)
                         (Notifications cfg),
                       None)
                  end
              end
          end
      end
  end.

(** One entry of [os.ReadDir]. *)
Record DirEntry := mkDirEntry { de_name : string; de_isDir : bool }.

(** The loop of [main] over the entries of the watch directory, each file
    handled without the stability check. *)
Fixpoint startupScan (env : Env) (watch : string) (entries : list DirEntry)
    (cfg : Config) (dav : bool) : M unit :=
  match entries with
  | [] => ret tt
  | e :: rest =>
      (if de_isDir e then ret tt
       else handleFile env (Filepath.Join [watch; de_name e]) cfg dav true);;;
      startupScan env watch rest cfg dav
  end.

(** A computation that leaves the clock alone. *)
Definition timeless {A} (m : M A) : Prop :=
  forall w, now (snd (m w)) = now w.

(** The polls number [n] to [n + m - 1] of a path, as they are recorded. *)
Definition polls (env : Env) (path : string) (n m : nat) : list Event :=
  map (fun i => EvPoll path (observe env path i)) (seq n m).

(** A volume boundary between [/in] and [/out]: every rename of
    [/in/a.txt] fails, everything else works. *)
Definition othervolume : Env := {|
  UserHomeDir := UserHomeDir Examples.quiet;
  TypeByExtension := TypeByExtension Examples.quiet;
  DetectContentType := DetectContentType Examples.quiet;
  faulty := fun o => match o with
                     | OpRename "/in/a.txt" _ => true
                     | _ => false
                     end;
  copy_cut := 0;
  observe := observe Examples.quiet;
  tick := tick Examples.quiet;
  dir_size := dir_size Examples.quiet;
  darwin := darwin Examples.quiet;
  dav_accepts := dav_accepts Examples.quiet;
  dav_in_time := dav_in_time Examples.quiet
|}.

(** A host where nothing can be renamed or removed and every copy breaks
    off after two bytes. *)
Definition stubborn : Env := {|
  UserHomeDir := UserHomeDir Examples.quiet;
  TypeByExtension := TypeByExtension Examples.quiet;
  DetectContentType := DetectContentType Examples.quiet;
  faulty := fun o => match o with
                     | OpRename _ _ | OpCopy _ _ | OpRemove _ => true
                     | _ => false
                     end;
  copy_cut := 2;
  observe := observe Examples.quiet;
  tick := tick Examples.quiet;
  dir_size := dir_size Examples.quiet;
  darwin := darwin Examples.quiet;
  dav_accepts := dav_accepts Examples.quiet;
  dav_in_time := dav_in_time Examples.quiet
|}.

(** An inbox beside a destination where an earlier run has left
    [a.txt.tmp] behind. *)
Definition stale : World :=
  Examples.world
    [("/in/a.txt", "hello"); ("/out/a.txt.tmp", "old"); ("/out/b.txt", "other")]
    ["/in"; "/out"].



(** An action that [loadConfig] lets through: [move] or [copy] in any
    case and with white space around it, or nothing at all. *)
Definition valid_action (a : string) : bool :=
  let a' := Strings.ToLower (TrimSpace a) in
  String.eqb a' "" || String.eqb a' "move" || String.eqb a' "copy".

(** A rule as a user may write it, and a decoder that finds just this rule
    in the file. *)
Definition shouting : Rule := {|
  Name := "Docs"; Patterns := []; Extensions := ["pdf"]; MIMEPrefixes := [];
  Action := " COPY "; Dest := "~/Documents"; SkipDuplicates := false;
  WebDAVUpload := false; WebDAVPath := ""
|}.

Definition decode_rules (rules : list Rule) (b : string) (c : Config) : option Config :=
  Some (mkConfig (WatchDir c) rules (IgnoreExts c) (SettleMillis c) (PollMillis c)
          (WebDAV c) (LogJSON c) (CreateDestDirs c) (Notifications c)).

Definition configured : World := Examples.world [("/etc/downwatch.yaml", "rules: ...")] [].

(** * Verification *)

(** ** Home expansion *)

Lemma TrimPrefix_absent s p :
  Strings.HasPrefix s p = false -> Strings.TrimPrefix s p = s.
Proof. unfold Strings.TrimPrefix. by intros ->. Qed.

(** C10: a path that starts with a tilde but is neither ["~"] nor begins
    with ["~/"] (such as ["~alice/docs"]) is not looked up as another
    user's home and is no error: the whole path, tilde included, is joined
    onto the current user's home directory. *)
Theorem expandHome_tilde_name (env : Env) (home p : string) :
  UserHomeDir env = Some home ->
  Strings.HasPrefix p "~" = true ->
  p <> "~" ->
  Strings.HasPrefix p "~/" = false ->
  expandHome env p = (Filepath.Join [home; p], None).
Proof.
  intros Hhome Htilde Hne Hslash. unfold expandHome.
  destruct (String.eqb_spec p "") as [-> | _]; [discriminate |].
  rewrite Htilde, Hhome.
  destruct (String.eqb_spec p "~") as [? | _]; [contradiction |].
  by rewrite TrimPrefix_absent.
Qed.

Lemma expandHome_tilde_name_witness :
  expandHome Examples.quiet "~alice/docs" = ("/home/bob/~alice/docs", None).
Proof.
  exact (expandHome_tilde_name Examples.quiet "/home/bob" "~alice/docs"
           eq_refl eq_refl ltac:(discriminate) eq_refl).
Defined.

(** ** Classifier *)

Section Classifier.

Variable env : Env.

Lemma chooseRule_loop_first base mt rules k :
  match chooseRule_loop base mt k rules with
  | Some (i, r) =>
      exists j : nat, i = (k + j)%nat /\ rules !! j = Some r
        /\ ruleApplies base mt r = true
        /\ forall (j' : nat) r', (j' < j)%nat -> rules !! j' = Some r' ->
             ruleApplies base mt r' = false
  | None => forall r, r ∈ rules -> ruleApplies base mt r = false
  end.
Proof.
  revert k. induction rules as [| r rest IH]; intros k; simpl.
  - intros r Hr. by apply elem_of_nil in Hr.
  - destruct (ruleApplies base mt r) eqn:Hr.
    + exists 0%nat. split_and!; [lia | done | done | intros; lia].
    + specialize (IH (S k)).
      destruct (chooseRule_loop base mt (S k) rest) as [[i r1] |].
      * destruct IH as (j & -> & Hj & Hap & Hbefore).
        exists (S j). split_and!; [lia | done | done |].
        intros [| j'] r' Hlt Hlook; simpl in Hlook.
        -- by inversion Hlook; subst.
        -- apply (Hbefore j'); [lia | done].
      * intros r' [-> | Hin]%elem_of_cons; [done | by apply IH].
Qed.

Lemma ruleApplies_false base mt r :
  ruleApplies base mt r = false ->
  anyPatternMatch base (Patterns r) = false
  /\ extMatches base (Extensions r) = false
  /\ mimePrefixMatches mt (MIMEPrefixes r) = false.
Proof.
  unfold ruleApplies. intros H.
  apply orb_false_iff in H as [H ?]. apply orb_false_iff in H as [? ?]. done.
Qed.

Lemma ruleApplies_true base mt r :
  ruleApplies base mt r = true ->
  anyPatternMatch base (Patterns r) = true
  \/ extMatches base (Extensions r) = true
  \/ mimePrefixMatches mt (MIMEPrefixes r) = true.
Proof.
  unfold ruleApplies. intros H.
  apply orb_true_iff in H as [H | ?]; [apply orb_true_iff in H as [? | ?] |]; auto.
Qed.

(** C3: [chooseRule] returns the first rule, in declared order, for which
    the glob-pattern, the extension or the MIME-prefix criterion holds: all
    three criteria fail for every rule before it.  When it returns no rule
    ([nil], not an error), the three criteria fail for every rule. *)
Theorem chooseRule_first_match (w : World) (path : string) (rules : list Rule) :
  let base := Filepath.Base path in
  let mt := detectMIME env w path in
  match chooseRule env w path rules with
  | Some (i, r) =>
      rules !! i = Some r
      /\ (anyPatternMatch base (Patterns r) = true
          \/ extMatches base (Extensions r) = true
          \/ mimePrefixMatches mt (MIMEPrefixes r) = true)
      /\ forall (j : nat) r', (j < i)%nat -> rules !! j = Some r' ->
           anyPatternMatch base (Patterns r') = false
           /\ extMatches base (Extensions r') = false
           /\ mimePrefixMatches mt (MIMEPrefixes r') = false
  | None =>
      forall r, r ∈ rules ->
        anyPatternMatch base (Patterns r) = false
        /\ extMatches base (Extensions r) = false
        /\ mimePrefixMatches mt (MIMEPrefixes r) = false
  end.
Proof.
  intros base mt. unfold chooseRule. fold base mt.
  pose proof (chooseRule_loop_first base mt rules 0) as H.
  destruct (chooseRule_loop base mt 0 rules) as [[i r] |].
  - destruct H as (j & -> & Hj & Hap & Hbefore). simpl.
    split_and!; [done | by apply ruleApplies_true |].
    intros j' r' Hlt Hlook. apply ruleApplies_false. eauto.
  - intros r Hr. apply ruleApplies_false. auto.
Qed.

End Classifier.

(** ** Case sensitivity of the three criteria *)

Lemma lower_byte_eqb_dot c : Ascii.eqb (Strings.lower_byte c) "." = Ascii.eqb c ".".
Proof. destruct c as [[] [] [] [] [] [] [] []]; reflexivity. Qed.

Lemma lower_byte_eqb_slash c : Ascii.eqb (Strings.lower_byte c) "/" = Ascii.eqb c "/".
Proof. destruct c as [[] [] [] [] [] [] [] []]; reflexivity. Qed.

Lemma ext_scan_ToLower s :
  Filepath.ext_scan (Strings.ToLower s) = Strings.ToLower <$> Filepath.ext_scan s.
Proof.
  induction s as [| c r IH]; [done |]. simpl. rewrite IH.
  destruct (Filepath.ext_scan r); simpl; [done |].
  rewrite lower_byte_eqb_dot, lower_byte_eqb_slash.
  destruct (Ascii.eqb c "."); [done |]. by destruct (Ascii.eqb c "/").
Qed.

Lemma Ext_ToLower s : Filepath.Ext (Strings.ToLower s) = Strings.ToLower (Filepath.Ext s).
Proof.
  unfold Filepath.Ext. rewrite ext_scan_ToLower.
  by destruct (Filepath.ext_scan s).
Qed.

Lemma EqualFold_true s t :
  Strings.EqualFold s t = true <-> Strings.ToLower s = Strings.ToLower t.
Proof. unfold Strings.EqualFold. apply String.eqb_eq. Qed.































(** ** Destination naming *)

Section Naming.

Variable env : Env.

Lemma uniquePath_loop_scan w dst dir stem ext n i0 :
  (exists i : nat, (i0 <= i < i0 + n)%nat
     /\ uniquePath_loop env w dst dir stem ext n i0 = numbered dir stem ext i
     /\ os_Stat env w (numbered dir stem ext i) = None
     /\ forall j : nat, (i0 <= j < i)%nat -> os_Stat env w (numbered dir stem ext j) <> None)
  \/ ((forall j : nat, (i0 <= j < i0 + n)%nat ->
         os_Stat env w (numbered dir stem ext j) <> None)
      /\ uniquePath_loop env w dst dir stem ext n i0 = dst ++ ".dup").
Proof.
  revert i0. induction n as [| n IH]; intros i0; simpl.
  - right. split; [intros; lia | done].
  - destruct (os_Stat env w (numbered dir stem ext i0)) eqn:Hst.
    + destruct (IH (S i0)) as [(i & Hi & Heq & Hfree & Hbefore) | [Hall Heq]].
      * left. exists i. split; [lia |]. split; [done |]. split; [done |].
        intros j Hj. destruct (decide (j = i0)) as [-> | ?]; [congruence |].
        apply Hbefore. lia.
      * right. split; [| done].
        intros j Hj. destruct (decide (j = i0)) as [-> | ?]; [congruence |].
        apply Hall. lia.
    + left. exists i0. split; [lia |]. split; [done |]. split; [done |]. intros; lia.
Qed.

(** C7, amended: when [dst] is free it is returned; otherwise the result is
    the first free name among [stem (2)ext], [stem (3)ext], ... up to 9999,
    every earlier one being taken; and when all of these are taken the
    result is [dst.dup], which is returned without a look at the disk. *)
Theorem uniquePath_first_free (w : World) (dst : string) :
  let dir := Filepath.Dir dst in
  let ext := Filepath.Ext (Filepath.Base dst) in
  let stem := Strings.TrimSuffix (Filepath.Base dst) ext in
  match os_Stat env w dst with
  | None => uniquePath env w dst = dst
  | Some _ =>
      (exists i : nat, (2 <= i < 10000)%nat
         /\ uniquePath env w dst = numbered dir stem ext i
         /\ os_Stat env w (uniquePath env w dst) = None
         /\ forall j : nat, (2 <= j < i)%nat ->
              os_Stat env w (numbered dir stem ext j) <> None)
      \/ ((forall j : nat, (2 <= j < 10000)%nat ->
             os_Stat env w (numbered dir stem ext j) <> None)
          /\ uniquePath env w dst = dst ++ ".dup")
  end.
Proof.
  intros dir ext stem. unfold uniquePath.
  destruct (os_Stat env w dst) eqn:Hdst; [| done].
  fold dir ext stem.
  destruct (uniquePath_loop_scan w dst dir stem ext (10000 - 2) 2)
    as [(i & Hi & Heq & Hfree & Hbefore) | [Hall Heq]].
  - left. exists i. rewrite Heq. split; [lia |]. done.
  - right. split; [| done]. intros j Hj. apply Hall. lia.
Qed.

End Naming.

(** The scenario of the specification: with [report.pdf] and
    [report (2).pdf] taken, the engine picks [report (3).pdf]. *)
Example uniquePath_third :
  uniquePath Examples.quiet Examples.twice "/out/report.pdf" = "/out/report (3).pdf".
Proof. vm_compute. reflexivity. Qed.

Lemma world_taken env fs ds p :
  p ∈ fs.*1 -> os_Stat env (Examples.world fs ds) p <> None.
Proof.
  intros Hp. unfold os_Stat, Examples.world. simpl.
  destruct (list_to_map fs !! p) eqn:Hlook; [done |].
  apply not_elem_of_list_to_map in Hlook. contradiction.
Qed.

Lemma crowded_taken p :
  p ∈ Examples.crowded_names -> os_Stat Examples.quiet Examples.crowded p <> None.
Proof.
  intros Hp. apply world_taken.
  rewrite <- list_fmap_compose.
  apply list_elem_of_fmap. exists p. done.
Qed.

Lemma crowded_numbered (i : nat) :
  (2 <= i < 10000)%nat -> numbered "/out" "a" ".txt" i ∈ Examples.crowded_names.
Proof.
  intros Hi. unfold Examples.crowded_names.
  do 2 apply list_elem_of_further.
  apply list_elem_of_fmap. exists i. split; [done |]. apply elem_of_seq. lia.
Qed.

Lemma crowded_fallback :
  uniquePath Examples.quiet Examples.crowded "/out/a.txt" = "/out/a.txt.dup".
Proof.
  pose proof (uniquePath_first_free Examples.quiet Examples.crowded "/out/a.txt") as H.
  cbv zeta in H.
  change (Filepath.Dir "/out/a.txt") with "/out" in H.
  change (Filepath.Ext (Filepath.Base "/out/a.txt")) with ".txt" in H.
  change (Strings.TrimSuffix (Filepath.Base "/out/a.txt") ".txt") with "a" in H.
  destruct (os_Stat Examples.quiet Examples.crowded "/out/a.txt") eqn:Hst.
  - destruct H as [(i & Hi & Heq & Hfree & _) | [_ Heq]]; [| exact Heq].
    exfalso. revert Hfree. rewrite Heq. apply crowded_taken.
    by apply crowded_numbered.
  - exfalso. revert Hst. apply crowded_taken. apply list_elem_of_here.
Qed.

(** C7, as stated, fails: with the name and all its numbered variants
    taken, the path returned is [a.txt.dup] although a file of that name
    exists. *)
Lemma uniquePath_dup_counterexample :
  ~ returns_free Examples.quiet Examples.crowded "/out/a.txt".
Proof.
  unfold returns_free. rewrite crowded_fallback.
  apply crowded_taken. apply list_elem_of_further, list_elem_of_here.
Qed.

(** ** Duplicate detection *)

Section Duplicates.

Variable env : Env.

Lemma sameSize_loop_true w destDir stem ext srcSize n i0 :
  sameSize_loop env w destDir stem ext srcSize n i0 = true <->
  srcSize > 0
  /\ exists i : nat, (i0 <= i < i0 + n)%nat
       /\ same_size env w (numbered destDir stem ext i) srcSize
       /\ forall j : nat, (i0 <= j < i)%nat ->
            os_Stat env w (numbered destDir stem ext j) <> None.
Proof.
  revert i0. induction n as [| n IH]; intros i0; simpl.
  - split; [done |]. intros (_ & i & Hi & _). lia.
  - destruct (os_Stat env w (numbered destDir stem ext i0)) as [st |] eqn:Hst.
    + destruct (Z.eqb_spec (Size st) srcSize) as [Heq | Hne]; simpl.
      * destruct (Z.gtb_spec srcSize 0) as [Hpos | Hnpos].
        -- split; [intros _ | done]. split; [lia |].
           exists i0. split; [lia |]. split; [by exists st |]. intros; lia.
        -- rewrite IH. split; intros [Hpos _]; lia.
      * rewrite IH. split.
        -- intros (Hpos & i & Hi & Hsame & Hbefore). split; [done |].
           exists i. split; [lia |]. split; [done |].
           intros j Hj. destruct (decide (j = i0)) as [-> | ?]; [congruence |].
           apply Hbefore. lia.
        -- intros (Hpos & i & Hi & Hsame & Hbefore). split; [done |].
           destruct (decide (i = i0)) as [-> | ?].
           ++ destruct Hsame as (st' & Hst' & Hsz). congruence.
           ++ exists i. split; [lia |]. split; [done |]. intros j Hj. apply Hbefore. lia.
    + split; [done |]. intros (_ & i & Hi & Hsame & Hbefore).
      destruct (decide (i = i0)) as [-> | ?].
      * destruct Hsame as (st' & Hst' & _). congruence.
      * exfalso. apply (Hbefore i0); [lia | done].
Qed.

(** C9, amended: a duplicate is reported if and only if the source can be
    stat'ed, is not empty, and either the base name is in the destination
    directory with the same size, or a numbered variant [stem (i)ext],
    2 <= i < 10000, is there with the same size and every variant with a
    smaller number exists as well (the scan stops at the first number that
    is missing). *)
Theorem fileExistsWithSameSize_iff (w : World) (srcPath destDir : string) :
  let baseName := Filepath.Base srcPath in
  let ext := Filepath.Ext baseName in
  let stem := Strings.TrimSuffix baseName ext in
  fileExistsWithSameSize env w srcPath destDir = true <->
  exists src, os_Stat env w srcPath = Some src /\ Size src > 0
    /\ (same_size env w (Filepath.Join [destDir; baseName]) (Size src)
        \/ exists i : nat, (2 <= i < 10000)%nat
             /\ same_size env w (numbered destDir stem ext i) (Size src)
             /\ forall j : nat, (2 <= j < i)%nat ->
                  os_Stat env w (numbered destDir stem ext j) <> None).
Proof.
  intros baseName ext stem. unfold fileExistsWithSameSize.
  fold baseName. fold ext. fold stem.
  destruct (os_Stat env w srcPath) as [src |] eqn:Hsrc.
  2: { split; [done |]. intros (src & Hsome & _). done. }
  set (exact := match os_Stat env w (Filepath.Join [destDir; baseName]) with
                | Some dstStat => (Size dstStat =? Size src) && (Size src >? 0)
                | None => false
                end).
  assert (Hexact : exact = true <->
            Size src > 0 /\ same_size env w (Filepath.Join [destDir; baseName]) (Size src)).
  { unfold exact, same_size.
    destruct (os_Stat env w (Filepath.Join [destDir; baseName])) as [st |].
    - rewrite andb_true_iff, Z.eqb_eq, Z.gtb_gt. split.
      + intros [? ?]. split; [lia |]. by exists st.
      + intros (? & st' & [= <-] & ?). split; [done | lia].
    - split; [done |]. intros (_ & st' & ? & _). done. }
  destruct exact.
  - split; [intros _ | done].
    destruct (proj1 Hexact eq_refl) as [Hpos Hsame].
    exists src. split; [done |]. split; [done |]. by left.
  - rewrite sameSize_loop_true. split.
    + intros (Hpos & i & Hi & Hsame & Hbefore).
      exists src. split; [done |]. split; [done |]. right.
      exists i. split; [lia |]. split; [done |]. intros j Hj. apply Hbefore. lia.
    + intros (src' & [= <-] & Hpos & [Hex | (i & Hi & Hsame & Hbefore)]).
      * assert (false = true) by (apply Hexact; done). done.
      * split; [done |]. exists i. split; [lia |]. split; [done |].
        intros j Hj. apply Hbefore. lia.
Qed.

End Duplicates.

(** C9, as stated, fails: [a (3).txt] has the size of the source, yet no
    duplicate is reported, because [a (2).txt] is missing and the scan
    stops there. *)
Lemma duplicate_gap_counterexample :
  ~ (fileExistsWithSameSize Examples.quiet Examples.gap "/in/a.txt" "/out" = true
     <-> duplicate_claimed Examples.quiet Examples.gap "/in/a.txt" "/out").
Proof.
  intros [_ H].
  assert (Hcode : fileExistsWithSameSize Examples.quiet Examples.gap "/in/a.txt" "/out" = false)
    by (vm_compute; reflexivity).
  rewrite Hcode in H. discriminate H.
  exists (mkFileInfo 5 false). split; [vm_compute; reflexivity |].
  split; [reflexivity |]. right.
  exists 3%nat. split; [split; apply Nat.leb_le; vm_compute; reflexivity |].
  exists (mkFileInfo 5 false). split; [vm_compute; reflexivity | reflexivity].
Qed.

(** ** Stability detector *)

Section Stability.

Variable env : Env.

Lemma wrap64_small z : - 2 ^ 63 <= z < 2 ^ 63 -> wrap64 z = z.
Proof. intros Hz. unfold wrap64. rewrite Z.mod_small; lia. Qed.

Lemma ceil_div_bounds settle poll :
  0 < poll ->
  (ceil_div settle poll - 1) * poll < settle <= ceil_div settle poll * poll.
Proof.
  intros Hpoll. unfold ceil_div.
  pose proof (Z.div_mod (settle + poll - 1) poll) as Hdm.
  pose proof (Z.mod_pos_bound (settle + poll - 1) poll Hpoll) as Hmod.
  nia.
Qed.

Lemma rounds_cover : safety <= Z.of_nat (rounds env) * Z.pos (tick env).
Proof.
  unfold rounds.
  assert (0 <= safety / Z.pos (tick env)) by (apply Z.div_pos; [done | lia]).
  rewrite Nat2Z.inj_succ, Z2Nat.id by done.
  pose proof (Z.div_mod safety (Z.pos (tick env))) as Hdm.
  pose proof (Z.mod_pos_bound safety (Z.pos (tick env))) as Hmod.
  nia.
Qed.

(** The loop always comes to an end within the fuel [waitUntilStable] gives it. *)
Lemma waitLoop_terminates path settle poll deadline f :
  forall w n lastSize stableFor,
    deadline - now w <= Z.of_nat f * Z.pos (tick env) ->
    fst (waitLoop env (S f) path settle poll deadline n lastSize stableFor w) <> None.
Proof.
  induction f as [| f IH]; intros w n lastSize stableFor Hfuel.
  - simpl. unfold bind, get.
    destruct (Z.ltb_spec (now w) deadline); [lia | done].
  - remember (S f) as fuel eqn:Hfuel'. simpl. unfold bind, get.
    destruct (Z.ltb_spec (now w) deadline); [| done].
    unfold poll_Stat, bind, get, set_now, emit, ret. simpl.
    destruct (observe env path n) as [size |]; [| done].
    destruct (size =? lastSize).
    + destruct (wrap64 (stableFor + poll) >=? settle); [done |].
      unfold time_Sleep, bind, get, set_now. simpl. subst fuel.
      apply IH. simpl. lia.
    + unfold time_Sleep, bind, get, set_now. simpl. subst fuel.
      apply IH. simpl. lia.
Qed.

Lemma waitLoop_constant path settle poll deadline c (m : nat) :
  0 < poll ->
  (forall k, observe env path k = Some c) ->
  forall fuel w n stableFor,
    (1 <= m <= fuel)%nat ->
    0 <= stableFor ->
    stableFor + Z.of_nat m * poll < 2 ^ 63 ->
    stableFor + (Z.of_nat m - 1) * poll < settle <= stableFor + Z.of_nat m * poll ->
    now w + (Z.of_nat m - 1) * (poll + Z.pos (tick env)) < deadline ->
    waitLoop env fuel path settle poll deadline n c stableFor w =
    (Some None,
     mkWorld (files w) (dirs w) (processing w)
       (now w + (Z.of_nat m - 1) * (poll + Z.pos (tick env)) + Z.pos (tick env))
       (trace w ++ repeat (EvPoll path (Some c)) m)%list).
Proof.
  intros Hpoll Hobs. induction m as [| m IH]; intros fuel w n sf Hm Hsf Hmax Hsettle Hnow.
  - lia.
  - destruct fuel as [| fuel]; [lia |]. simpl waitLoop. unfold bind at 1, get at 1.
    destruct (Z.ltb_spec (now w) deadline) as [_ | Hlate]; [| nia].
    unfold poll_Stat, bind, get, set_now, emit, ret. simpl.
    rewrite Hobs, Z.eqb_refl.
    rewrite wrap64_small by nia.
    destruct (Z.geb_spec (sf + poll) settle) as [Hdone | Hmore].
    + assert (m = 0%nat) by nia. subst m. simpl. f_equal. f_equal. lia.
    + unfold time_Sleep, bind, get, set_now. simpl.
      rewrite (IH fuel _ (S n) (sf + poll)); simpl; try nia.
      f_equal. f_equal; [lia |]. by rewrite <- app_assoc.
Qed.

Lemma waitLoop_changing path settle poll deadline :
  (forall k, exists s, observe env path k = Some s /\ 0 <= s) ->
  (forall k, observe env path (S k) <> observe env path k) ->
  forall f w n lastSize,
    (n = 0%nat /\ lastSize = -1
     \/ exists n', n = S n' /\ observe env path n' = Some lastSize) ->
    deadline - now w <= Z.of_nat f * Z.pos (tick env) ->
    exists w',
      waitLoop env (S f) path settle poll deadline n lastSize 0 w
        = (Some (Some ENotStable), w')
      /\ deadline <= now w'
      /\ (now w < deadline -> now w' < deadline + Z.pos (tick env) + Z.max poll 0)
      /\ files w' = files w /\ processing w' = processing w.
Proof.
  intros Hobs Hchg. induction f as [| f IH]; intros w n lastSize Hlast Hfuel.
  - exists w. simpl. unfold bind, get.
    destruct (Z.ltb_spec (now w) deadline); [lia |].
    split; [done |]. split; [done |]. split; [lia | done].
  - remember (S f) as fuel eqn:Hfuel'. simpl. unfold bind at 1, get at 1.
    destruct (Z.ltb_spec (now w) deadline) as [Hearly | Hlate].
    2: { exists w. split; [done |]. split; [done |]. split; [lia | done]. }
    unfold poll_Stat, bind, get, set_now, emit, ret. simpl.
    destruct (Hobs n) as (s & Hs & Hpos). rewrite Hs.
    assert (Hne : s <> lastSize).
    { destruct Hlast as [[_ ->] | (n' & -> & Hprev)]; [lia |].
      intros ->. apply (Hchg n'). congruence. }
    destruct (Z.eqb_spec s lastSize) as [? | _]; [done |].
    unfold time_Sleep, bind, get, set_now. simpl. subst fuel.
    match goal with |- context [waitLoop _ _ _ _ _ _ _ _ _ ?w1] => set (w1' := w1) end.
    destruct (IH w1' (S n) s) as (w' & Hrun & Hend & Hbound & Hfiles & Hproc).
    + right. by exists n.
    + subst w1'. simpl. lia.
    + exists w'. split; [done |]. split; [done |]. split; [| done].
      intros _. subst w1'. simpl in *.
      destruct (Z.lt_ge_cases (now w + Z.pos (tick env) + Z.max poll 0) deadline) as [Hlt | Hge].
      * auto.
      * revert Hrun. simpl. unfold bind at 1, get at 1. simpl.
        destruct (Z.ltb_spec (now w + Z.pos (tick env) + Z.max poll 0) deadline); [lia |].
        intros [= <-]. simpl. lia.
Qed.

(** C6, amended: with positive settle and poll durations, a file whose size
    is the same at every poll is declared stable at poll number
    [ceil(settle/poll) + 1] (the first poll only records the size, each of
    the next [ceil(settle/poll)] adds one poll interval), provided that
    many rounds fit under the five-minute ceiling.  A file whose size
    differs between any two consecutive polls is never declared stable: for
    every settle duration and poll interval the wait fails with the
    did-not-stabilize error at the first check of the clock that is not
    before start plus five minutes. *)
Theorem waitUntilStable_behaviour (w : World) (path : string) (settle poll : Z) :
  (forall c,
      0 < settle -> 0 < poll -> 0 <= c ->
      (forall n, observe env path n = Some c) ->
      ceil_div settle poll * (poll + Z.pos (tick env)) < safety ->
      stable_after env w path settle poll c (S (Z.to_nat (ceil_div settle poll)))
      /\ now (snd (waitUntilStable env path settle poll w))
         = now w + ceil_div settle poll * (poll + Z.pos (tick env)) + Z.pos (tick env))
  /\ ((forall n, exists s, observe env path n = Some s /\ 0 <= s) ->
      (forall n, observe env path (S n) <> observe env path n) ->
      exists w',
        waitUntilStable env path settle poll w = (Some ENotStable, w')
        /\ now w + safety <= now w' < now w + safety + Z.pos (tick env) + Z.max poll 0).
Proof.
  split.
  - intros c Hsettle Hpoll Hc Hobs Hfit.
    pose proof (ceil_div_bounds settle poll Hpoll) as HK.
    set (K := ceil_div settle poll) in *.
    assert (HK1 : 1 <= K) by nia.
    assert (Hrun : waitUntilStable env path settle poll w =
      (None, mkWorld (files w) (dirs w) (processing w)
               (now w + K * (poll + Z.pos (tick env)) + Z.pos (tick env))
               (trace w ++ repeat (EvPoll path (Some c)) (S (Z.to_nat K)))%list)).
    { unfold waitUntilStable. unfold bind at 1, get at 1.
      pose proof rounds_cover as Hcover.
      set (R := rounds env) in *. clearbody R.
      simpl waitLoop.
      unfold poll_Stat, time_Sleep, bind, get, set_now, emit, ret. simpl.
      rewrite Hobs. destruct (Z.eqb_spec c (-1)) as [? | _]; [lia |].
      destruct (Z.ltb_spec (now w) (now w + safety)) as [_ | Hbad];
        [| unfold safety in Hbad; lia].
      rewrite Z.max_l by lia.
      assert (Hpow : 2 ^ 63 = 9223372036854775808) by reflexivity.
      assert (Htick : 0 < Z.pos (tick env)) by lia.
      rewrite (waitLoop_constant path settle poll (now w + safety) c (Z.to_nat K) Hpoll Hobs);
        rewrite ?Z2Nat.id by lia; cbn [now files dirs processing trace].
      - simpl. f_equal. f_equal; [lia |]. by rewrite <- app_assoc.
      - split; [lia |].
        apply Nat2Z.inj_le. rewrite Z2Nat.id by lia. nia.
      - lia.
      - rewrite Hpow. unfold safety in Hfit. nia.
      - lia.
      - nia. }
    split; [| by rewrite Hrun].
    eexists. split; [exact Hrun | done].
  - intros Hobs Hchg. unfold waitUntilStable. unfold bind at 1, get at 1.
    destruct (waitLoop_changing path settle poll (now w + safety) Hobs Hchg
                (rounds env) w 0%nat (-1)) as (w' & Hrun & Hend & Hbound & _).
    + by left.
    + pose proof rounds_cover. lia.
    + exists w'. unfold bind. rewrite Hrun. simpl. split; [done |].
      split; [lia |]. unfold safety in *. lia.
Qed.

End Stability.

Lemma waitUntilStable_behaviour_witness :
  (stable_after Examples.quiet Examples.idle "/in/f"
     (300 * Examples.millisecond) (150 * Examples.millisecond) 10 3
   /\ now (snd (waitUntilStable Examples.quiet "/in/f"
                  (300 * Examples.millisecond) (150 * Examples.millisecond) Examples.idle))
      = 303 * Examples.millisecond)
  /\ exists w',
       waitUntilStable Examples.growing "/in/f"
         (300 * Examples.millisecond) (150 * Examples.millisecond) Examples.idle
       = (Some ENotStable, w')
       /\ 0 + safety <= now w' < 0 + safety + 1000000 + Z.max (150 * Examples.millisecond) 0.
Proof.
  split.
  - apply (proj1 (waitUntilStable_behaviour Examples.quiet Examples.idle "/in/f"
                    (300 * Examples.millisecond) (150 * Examples.millisecond)) 10).
    + reflexivity.
    + reflexivity.
    + discriminate.
    + reflexivity.
    + reflexivity.
  - apply (proj2 (waitUntilStable_behaviour Examples.growing Examples.idle "/in/f"
                    (300 * Examples.millisecond) (150 * Examples.millisecond))).
    + intros n. exists (Z.of_nat n). split; [reflexivity | lia].
    + intros n. simpl. intros [= H]. lia.
Defined.

(** C6, as stated, fails.  With settle 300 ms and poll 150 ms the file is
    not declared stable after [ceil(300/150) = 2] polls of a constant
    size: the wait polls a third time.  With settle 10 min and poll 1 min a
    file of constant size is never declared stable: the wait times out. *)
Lemma stable_samples_counterexample :
  ~ stable_after Examples.quiet Examples.idle "/in/f"
      (300 * Examples.millisecond) (150 * Examples.millisecond) 10
      (Z.to_nat (ceil_div (300 * Examples.millisecond) (150 * Examples.millisecond)))
  /\ fst (waitUntilStable Examples.quiet "/in/f"
            (10 * Examples.minute) Examples.minute Examples.idle)
     = Some ENotStable.
Proof.
  split.
  - intros (w' & Hrun & Htrace).
    vm_compute in Hrun. injection Hrun as <-.
    vm_compute in Htrace. discriminate Htrace.
  - vm_compute. reflexivity.
Qed.

(** ** Transfer engine *)

Section Transfer.

Variable env : Env.

Lemma length_append (s t : string) :
  String.length (s ++ t) = (String.length s + String.length t)%nat.
Proof. induction s as [| c s IH]; simpl; [done | by rewrite IH]. Qed.

Lemma tmp_name_fresh (s : string) : s ++ ".tmp" <> s.
Proof.
  intros H. apply (f_equal String.length) in H.
  rewrite length_append in H. simpl in H. lia.
Qed.

(** *** Rules for the monad and the system calls *)

Lemma wp_ret {A} (a : A) w (Q : A -> World -> Prop) : Q a w -> wp (ret a) w Q.
Proof. done. Qed.

Lemma wp_bind {A B} (m : M A) (k : A -> M B) w (Q : B -> World -> Prop) :
  wp m w (fun a w1 => wp (k a) w1 Q) -> wp (bind m k) w Q.
Proof. unfold wp, bind. by destruct (m w). Qed.

Lemma wp_get w (Q : World -> World -> Prop) : Q w w -> wp get w Q.
Proof. done. Qed.

Lemma upd_nil w : upd w (files w) (dirs w) [] = w.
Proof. destruct w. unfold upd. simpl. by rewrite app_nil_r. Qed.

Lemma wp_Rename a b w (Q : error -> World -> Prop) :
  (forall d, files w !! a = Some d ->
     fst (os_Rename env a b w) = None ->
     let f := <[b := d]> (delete a (files w)) in
     Q None (upd w f (dirs w) [EvSys (OpRename a b) true f])) ->
  (fst (os_Rename env a b w) <> None ->
   Q (Some (EFailed (OpRename a b)))
     (upd w (files w) (dirs w) [EvSys (OpRename a b) false (files w)])) ->
  wp (os_Rename env a b) w Q.
Proof.
  intros Hok Herr. unfold wp. revert Hok Herr.
  unfold os_Rename, sys, bind, get, ret, set_files, emit, upd. simpl.
  destruct (faulty env (OpRename a b)); simpl; [intros _ H; by apply H |].
  destruct (decide (b ∈ dirs w)); simpl; [intros _ H; by apply H |].
  destruct (files w !! a) as [d |]; simpl; [| intros _ H; by apply H].
  intros H _. by apply (H d).
Qed.

Lemma wp_Open p w (Q : error -> World -> Prop) :
  Q None w -> (forall e, Q (Some e) w) -> wp (os_Open env p) w Q.
Proof.
  intros Hok Herr. unfold wp, os_Open, bind, get, ret. simpl.
  destruct (faulty env (OpOpen p)); [apply Herr |].
  destruct (os_Stat env w p); [apply Hok | apply Herr].
Qed.

Lemma wp_MkdirAll dir w (Q : error -> World -> Prop) :
  (forall d, Q None (upd w (files w) d [EvSys (OpMkdirAll dir) true (files w)])) ->
  Q (Some (EFailed (OpMkdirAll dir)))
    (upd w (files w) (dirs w) [EvSys (OpMkdirAll dir) false (files w)]) ->
  wp (ensureDir env dir) w Q.
Proof.
  intros Hok Herr. unfold wp, ensureDir, os_MkdirAll, sys, bind, get, ret,
    set_files, set_dirs, emit. simpl.
  destruct (faulty env (OpMkdirAll dir)); simpl; [apply Herr |].
  destruct (existsb _ _); simpl; [apply Herr | apply Hok].
Qed.

Lemma wp_Create p w (Q : error -> World -> Prop) :
  (let f := <[p := ""]> (files w) in
   Q None (upd w f (dirs w) [EvSys (OpCreate p) true f])) ->
  Q (Some (EFailed (OpCreate p)))
    (upd w (files w) (dirs w) [EvSys (OpCreate p) false (files w)]) ->
  wp (os_Create env p) w Q.
Proof.
  intros Hok Herr. unfold wp, os_Create, sys, bind, get, ret, set_files, emit.
  simpl. destruct (faulty env (OpCreate p)); simpl; [apply Herr |].
  destruct (decide (p ∈ dirs w)); simpl; [apply Herr | apply Hok].
Qed.

Lemma wp_Copy df sf w (Q : error -> World -> Prop) :
  (forall data, files w !! sf = Some data ->
     faulty env (OpCopy df sf) = false ->
     let f := <[df := data]> (files w) in
     Q None (upd w f (dirs w) [EvSys (OpCopy df sf) true f])) ->
  (forall data, files w !! sf = Some data ->
     faulty env (OpCopy df sf) = true ->
     let f := <[df := Strings.take (copy_cut env) data]> (files w) in
     Q (Some (EFailed (OpCopy df sf)))
       (upd w f (dirs w) [EvSys (OpCopy df sf) false f])) ->
  (files w !! sf = None ->
   Q (Some (EFailed (OpCopy df sf)))
     (upd w (files w) (dirs w) [EvSys (OpCopy df sf) false (files w)])) ->
  wp (io_Copy env df sf) w Q.
Proof.
  intros Hok Hcut Hnone. unfold wp, io_Copy, sys, bind, get, ret, set_files, emit.
  simpl. destruct (files w !! sf) as [data |] eqn:Hsf; simpl; [| by apply Hnone].
  destruct (faulty env (OpCopy df sf)) eqn:Hf; simpl; [by apply Hcut | by apply Hok].
Qed.

Lemma wp_Sync p w (Q : error -> World -> Prop) :
  Q None (upd w (files w) (dirs w) [EvSys (OpSync p) true (files w)]) ->
  Q (Some (EFailed (OpSync p)))
    (upd w (files w) (dirs w) [EvSys (OpSync p) false (files w)]) ->
  wp (file_Sync env p) w Q.
Proof.
  intros Hok Herr. unfold wp, file_Sync, sys, bind, get, ret, set_files, emit.
  simpl. destruct (faulty env (OpSync p)); simpl; [apply Herr | apply Hok].
Qed.

Lemma wp_Close p w (Q : error -> World -> Prop) :
  Q None (upd w (files w) (dirs w) [EvSys (OpClose p) true (files w)]) ->
  Q (Some (EFailed (OpClose p)))
    (upd w (files w) (dirs w) [EvSys (OpClose p) false (files w)]) ->
  wp (file_Close env p) w Q.
Proof.
  intros Hok Herr. unfold wp, file_Close, sys, bind, get, ret, set_files, emit.
  simpl. destruct (faulty env (OpClose p)); simpl; [apply Herr | apply Hok].
Qed.

Lemma wp_Remove p w (Q : error -> World -> Prop) :
  (forall data, files w !! p = Some data ->
     faulty env (OpRemove p) = false ->
     let f := delete p (files w) in
     Q None (upd w f (dirs w) [EvSys (OpRemove p) true f])) ->
  (files w !! p = None ->
   Q None (upd w (files w) (dirs w ∖ {[p]}) [EvSys (OpRemove p) true (files w)])) ->
  (faulty env (OpRemove p) = true \/ files w !! p = None ->
   Q (Some (EFailed (OpRemove p)))
     (upd w (files w) (dirs w) [EvSys (OpRemove p) false (files w)])) ->
  wp (os_Remove env p) w Q.
Proof.
  intros Hfile Hdir Herr. unfold wp, os_Remove, sys, bind, get, ret, set_files,
    set_dirs, emit. simpl.
  destruct (faulty env (OpRemove p)) eqn:Hf; simpl; [apply Herr; by left |].
  destruct (files w !! p) as [data |] eqn:Hp.
  - rewrite bool_decide_eq_true_2 by eauto. simpl. by apply (Hfile data).
  - rewrite bool_decide_eq_false_2 by (by intros [? ?]). simpl.
    destruct (decide (p ∈ dirs w)); simpl; [by apply Hdir | apply Herr; by right].
Qed.

Ltac wp_step :=
  lazymatch goal with
  | |- wp (os_Rename _ _ _) _ _ => apply wp_Rename
  | |- wp (os_Open _ _) _ _ => apply wp_Open
  | |- wp (ensureDir _ _) _ _ => apply wp_MkdirAll
  | |- wp (os_Create _ _) _ _ => apply wp_Create
  | |- wp (io_Copy _ _ _) _ _ => apply wp_Copy
  | |- wp (file_Sync _ _) _ _ => apply wp_Sync
  | |- wp (file_Close _ _) _ _ => apply wp_Close
  | |- wp (os_Remove _ _) _ _ => apply wp_Remove
  | |- wp (bind _ _) _ _ => apply wp_bind
  | |- wp (ret _) _ _ => apply wp_ret
  end; cbv beta iota zeta;
  unfold upd; cbn [files dirs processing now trace]; intros.

Ltac world_simpl :=
  unfold upd in *; cbn [files dirs processing now trace] in *;
  rewrite <- ?app_assoc; cbn [app].

(** C1, amended: a move whose first rename succeeds is that rename and
    nothing else.  When the move fails, the source file is as it was; the
    temporary file is not left behind provided its removal, whose error
    the code discards, does not itself fail; and at no moment of any run
    does the destination name show a part of the source.  All this for a
    source that is not itself named like the temporary file of the
    destination, which the move creates anew. *)
Theorem atomicMove_safe (w : World) (src dst : string) :
  src <> dst ++ ".tmp" ->
  move_guarantee env w src dst.
Proof.
  intros Hsrc.
  pose proof (tmp_name_fresh dst) as Htmp.
  change (wp (atomicMove env src dst) w (fun err w' =>
    exists evs,
      trace w' = (trace w ++ evs)%list
      /\ never_partial w src dst evs
      /\ (fst (os_Rename env src dst w) = None ->
          err = None
          /\ evs = [EvSys (OpRename src dst) true (files w')]
          /\ exists d, files w !! src = Some d
               /\ files w' = <[dst := d]> (delete src (files w)))
      /\ (err <> None ->
          files w' !! src = files w !! src
          /\ (faulty env (OpRemove (dst ++ ".tmp")) = false ->
              files w' !! (dst ++ ".tmp") = None \/ files w' = files w)))).
  unfold atomicMove.
  repeat wp_step.
  all: world_simpl.
  all: try solve
    [ exfalso;
      repeat match goal with H : _ \/ _ |- _ => destruct H end;
      simplify_map_eq; congruence ].
  all: eexists; (split; [reflexivity |]).
  all: (split;
    [ unfold never_partial;
      repeat (apply List.Forall_cons;
              [ cbv beta iota; intros ? ?;
                destruct (decide (src = dst)); simplify_map_eq; eauto |]);
      try apply List.Forall_nil |]).
  all: (split;
          [ try (intros ?; exfalso; congruence);
            try (intros _; split; [done |]; split; [done |]; eexists; done)
          | ]).
  all: try (intros ?; exfalso; congruence).
  all: intros _; (split; [destruct (decide (src = dst)); by simplify_map_eq |]).
  all: intros Hrm.
  all: try (exfalso;
            repeat match goal with H : _ \/ _ |- _ => destruct H end;
            simplify_map_eq; congruence).
  all: try (left; by simplify_map_eq).
  all: try (right; done).
Qed.

(** C5, amended: [copyTo] creates, writes, flushes and closes the file
    under the destination name itself; there is no temporary file, no
    rename and no removal.  No file other than the destination changes, so
    a source different from the destination is never deleted; after a
    successful copy the destination has all the bytes of the source. *)
Theorem copyTo_in_place (w : World) (src dst : string) :
  src <> dst ->
  copy_outcome env w src dst.
Proof.
  intros Hne.
  change (wp (copyTo env src dst) w (fun err w' =>
    exists evs,
      trace w' = (trace w ++ evs)%list
      /\ in_place evs
      /\ (forall p, p <> dst -> files w' !! p = files w !! p)
      /\ (err = None -> is_Some (files w !! src) /\ files w' !! dst = files w !! src))).
  unfold copyTo.
  repeat wp_step.
  all: world_simpl.
  all: eexists; (split; [first [reflexivity | symmetry; apply app_nil_r] |]).
  all: (split; [unfold in_place; repeat (apply List.Forall_cons; [done |]);
                apply List.Forall_nil |]).
  all: (split; [intros; by simplify_map_eq |]).
  all: try (intros ?; exfalso; congruence).
  all: intros _; simplify_map_eq; eauto.
Qed.

End Transfer.

Lemma atomicMove_safe_witness :
  move_guarantee Examples.crossdev Examples.inbox "/in/a.txt" "/out/a.txt".
Proof.
  apply atomicMove_safe. discriminate.
Defined.

(** C1, as stated, fails: on a host where the write breaks off after two
    bytes and the temporary file cannot be removed, the move fails and
    [a.txt.tmp] stays behind with ["he"] in it.  And a source that is
    itself named [a.txt.tmp] is emptied by the move that fails. *)
Lemma atomicMove_cleanup_counterexample :
  ~ move_outcome stubborn Examples.inbox "/in/a.txt" "/out/a.txt"
  /\ fst (atomicMove stubborn "/in/a.txt" "/out/a.txt" Examples.inbox) <> None
  /\ files (snd (atomicMove stubborn "/in/a.txt" "/out/a.txt" Examples.inbox))
       !! "/out/a.txt.tmp" = Some "he"
  /\ files stale !! "/out/a.txt.tmp" = Some "old"
  /\ fst (atomicMove stubborn "/out/a.txt.tmp" "/out/a.txt" stale) <> None
  /\ files (snd (atomicMove stubborn "/out/a.txt.tmp" "/out/a.txt" stale))
       !! "/out/a.txt.tmp" = Some "".
Proof.
  split; [| split; [vm_compute; discriminate |
            split; [vm_compute; reflexivity |
            split; [vm_compute; reflexivity |
            split; [vm_compute; discriminate | vm_compute; reflexivity]]]]].
  intros (evs & _ & _ & _ & Hfail).
  destruct Hfail as [_ [Hgone | Hsame]].
  - vm_compute. discriminate.
  - vm_compute in Hgone. discriminate Hgone.
  - apply (f_equal (fun f => f !! "/out/a.txt.tmp")) in Hsame.
    vm_compute in Hsame. discriminate Hsame.
Qed.

Lemma copyTo_in_place_witness :
  copy_outcome Examples.crossdev Examples.inbox "/in/a.txt" "/out/a.txt".
Proof.
  apply copyTo_in_place. discriminate.
Defined.

(** C5, as stated, fails: when the write breaks off after two bytes, the
    copy returns the error and leaves ["he"] of ["hello"] under the final
    destination name; an empty file was visible there even before. *)
Lemma copyTo_partial_counterexample :
  ~ keeps_destination_whole
      (copyTo Examples.crossdev "/in/a.txt" "/out/a.txt")
      Examples.inbox "/in/a.txt" "/out/a.txt"
  /\ fst (copyTo Examples.crossdev "/in/a.txt" "/out/a.txt" Examples.inbox) <> None
  /\ files (snd (copyTo Examples.crossdev "/in/a.txt" "/out/a.txt" Examples.inbox))
       !! "/out/a.txt" = Some "he".
Proof.
  split; [| split; [vm_compute; discriminate | vm_compute; reflexivity]].
  intros (evs & Htrace & Hnp).
  change (trace Examples.inbox ++ evs)%list with evs in Htrace. subst evs.
  unfold never_partial in Hnp. rewrite List.Forall_forall in Hnp.
  set (after := files (snd (copyTo Examples.crossdev "/in/a.txt" "/out/a.txt" Examples.inbox))).
  specialize (Hnp (EvSys (OpCopy "/out/a.txt" "/in/a.txt") false after)).
  assert (Hin : In (EvSys (OpCopy "/out/a.txt" "/in/a.txt") false after)
                  (trace (snd (copyTo Examples.crossdev "/in/a.txt" "/out/a.txt" Examples.inbox)))).
  { vm_compute. right. right. left. reflexivity. }
  specialize (Hnp Hin "he" ltac:(vm_compute; reflexivity)).
  destruct Hnp as [H | H]; vm_compute in H; discriminate H.
Qed.

(** ** Dispatch coordinator *)

Section Coordinator.

Variable env : Env.

(** *** Nothing but [LoadOrStore] and [Delete] touches [processing] *)

Lemma keeps_ret {A} (a : A) : keeps (ret a).
Proof. done. Qed.

Lemma keeps_bind {A B} (m : M A) (k : A -> M B) :
  keeps m -> (forall a, keeps (k a)) -> keeps (bind m k).
Proof.
  intros Hm Hk w. unfold bind. specialize (Hm w).
  destruct (m w) as [a w1]. simpl in Hm. rewrite <- Hm. apply Hk.
Qed.

Lemma keeps_get : keeps get.
Proof. done. Qed.

Lemma keeps_emit e : keeps (emit e).
Proof. done. Qed.

Lemma keeps_set_files f : keeps (set_files f).
Proof. done. Qed.

Lemma keeps_set_dirs d : keeps (set_dirs d).
Proof. done. Qed.

Lemma keeps_set_now t : keeps (set_now t).
Proof. done. Qed.

Ltac keeps_step :=
  first
    [ apply keeps_ret | apply keeps_get | apply keeps_emit
    | apply keeps_set_files | apply keeps_set_dirs | apply keeps_set_now
    | assumption
    | apply keeps_bind; [| intros ?]
    | match goal with
      | |- keeps (match ?x with _ => _ end) => destruct x
      | |- keeps (if ?b then _ else _) => destruct b
      end ].

Ltac keeps_all := repeat keeps_step.

Lemma keeps_sys o after : keeps (sys o after).
Proof. unfold sys. keeps_all. Qed.

Lemma keeps_log l : keeps (log l).
Proof. apply keeps_emit. Qed.

Lemma keeps_Rename a b : keeps (os_Rename env a b).
Proof. unfold os_Rename. keeps_all. Qed.

Lemma keeps_Open p : keeps (os_Open env p).
Proof. unfold os_Open. keeps_all. Qed.

Lemma keeps_ensureDir d : keeps (ensureDir env d).
Proof. unfold ensureDir, os_MkdirAll. keeps_all. Qed.

Lemma keeps_Create p : keeps (os_Create env p).
Proof. unfold os_Create. keeps_all. Qed.

Lemma keeps_Copy a b : keeps (io_Copy env a b).
Proof. unfold io_Copy. keeps_all. Qed.

Lemma keeps_Sync p : keeps (file_Sync env p).
Proof. unfold file_Sync. keeps_all. Qed.

Lemma keeps_Close p : keeps (file_Close env p).
Proof. unfold file_Close. keeps_all. Qed.

Lemma keeps_Remove p : keeps (os_Remove env p).
Proof. unfold os_Remove. keeps_all. Qed.

Lemma keeps_atomicMove src dst : keeps (atomicMove env src dst).
Proof.
  pose proof keeps_Rename. pose proof keeps_Open. pose proof keeps_ensureDir.
  pose proof keeps_Create. pose proof keeps_Copy. pose proof keeps_Sync.
  pose proof keeps_Close. pose proof keeps_Remove.
  unfold atomicMove. repeat (solve [auto] || keeps_step).
Qed.

Lemma keeps_copyTo src dst : keeps (copyTo env src dst).
Proof.
  pose proof keeps_Open. pose proof keeps_ensureDir.
  pose proof keeps_Create. pose proof keeps_Copy. pose proof keeps_Sync.
  pose proof keeps_Close.
  unfold copyTo. repeat (solve [auto] || keeps_step).
Qed.

Lemma keeps_waitLoop fuel path settle poll deadline :
  forall n lastSize stableFor,
    keeps (waitLoop env fuel path settle poll deadline n lastSize stableFor).
Proof.
  induction fuel as [| fuel IH]; intros n lastSize stableFor; simpl.
  - apply keeps_ret.
  - unfold poll_Stat, time_Sleep. repeat (keeps_step || apply IH).
Qed.

Lemma keeps_waitUntilStable path settle poll :
  keeps (waitUntilStable env path settle poll).
Proof.
  unfold waitUntilStable. pose proof keeps_waitLoop. repeat (solve [auto] || keeps_step).
Qed.

Lemma keeps_transfer path cfg dav r destDir :
  keeps (transfer env path cfg dav r destDir).
Proof.
  pose proof keeps_atomicMove. pose proof keeps_copyTo. pose proof keeps_log.
  unfold transfer, notifyUser, davUpload. repeat (solve [auto] || keeps_step).
Qed.

Lemma keeps_dispatchRule path cfg dav r destDir :
  keeps (dispatchRule env path cfg dav r destDir).
Proof.
  pose proof keeps_transfer. pose proof keeps_Remove. pose proof keeps_log.
  unfold dispatchRule. repeat (solve [auto] || keeps_step).
Qed.

Lemma keeps_handleFile_body path cfg dav skip :
  keeps (handleFile_body env path cfg dav skip).
Proof.
  pose proof keeps_dispatchRule. pose proof keeps_waitUntilStable.
  pose proof keeps_ensureDir. pose proof keeps_log.
  unfold handleFile_body. repeat (solve [auto] || keeps_step).
Qed.


(** *** The guard seen from one call *)

Lemma handleFile_claimed w path cfg dav skip :
  path ∈ processing w -> handleFile env path cfg dav skip w = (tt, w).
Proof.
  intros Hin. unfold handleFile, LoadOrStore, bind, get, ret.
  by destruct (decide (path ∈ processing w)).
Qed.

Lemma LoadOrStore_free w path :
  path ∉ processing w ->
  LoadOrStore path w
  = (false, mkWorld (files w) (dirs w) ({[path]} ∪ processing w) (now w) (trace w)).
Proof.
  intros Hout. unfold LoadOrStore, bind, get, ret, set_processing.
  by destruct (decide (path ∈ processing w)).
Qed.

Lemma handleFile_unclaimed w path cfg dav skip :
  path ∉ processing w ->
  let claimed := snd (LoadOrStore path w) in
  path ∈ processing claimed
  /\ files claimed = files w /\ dirs claimed = dirs w /\ trace claimed = trace w
  /\ handleFile env path cfg dav skip w
     = (tt, snd (Delete path (snd (handleFile_body env path cfg dav skip claimed))))
  /\ processing (snd (handleFile env path cfg dav skip w)) = processing w.
Proof.
  intros Hout claimed. subst claimed.
  unfold handleFile, bind. rewrite (LoadOrStore_free w path Hout).
  cbn [fst snd files dirs trace processing].
  set (w1 := mkWorld _ _ _ _ _).
  pose proof (keeps_handleFile_body path cfg dav skip w1) as Hkeep.
  destruct (handleFile_body env path cfg dav skip w1) as [[] w2].
  cbn [fst snd] in *.
  split; [set_solver |]. do 3 (split; [done |]). split; [done |].
  unfold Delete, bind, get, set_processing. cbn [fst snd processing].
  rewrite Hkeep. subst w1. cbn [processing]. set_solver.
Qed.

End Coordinator.

(** *** The guard under interleaving *)

Lemma guarded_step s s' : guarded s -> step s s' -> guarded s'.
Proof.
  intros [Hex Hheld] Hstep.
  destruct Hstep as [i t w w' ts Hi Hph Hrun | i t w w' ts Hi Hph Hrun
                    | i t w w' ts Hi Hph Hproc | i t w w' ts Hi Hph Hrun];
    simpl in *.
  - (* claim *)
    unfold LoadOrStore, bind, get, ret, set_processing in Hrun.
    destruct (decide (t_path t ∈ processing w)) as [? | Hfree]; [done |].
    injection Hrun as <-. simpl. split.
    + intros a b ta tb Hab Ha Hb Hpa Hpb. simpl in Ha, Hb.
      destruct (decide (a = i)) as [-> | Hai]; destruct (decide (b = i)) as [-> | Hbi];
        try done.
      * rewrite list_lookup_insert_eq in Ha by (by eapply lookup_lt_Some).
        rewrite list_lookup_insert_ne in Hb by done.
        injection Ha as <-. simpl. intros Heq. apply Hfree. rewrite Heq. eauto.
      * rewrite list_lookup_insert_ne in Ha by done.
        rewrite list_lookup_insert_eq in Hb by (by eapply lookup_lt_Some).
        injection Hb as <-. simpl. intros Heq. apply Hfree. rewrite <- Heq. eauto.
      * rewrite list_lookup_insert_ne in Ha, Hb by done. eauto.
    + intros a ta Ha Hpa. simpl in Ha.
      destruct (decide (a = i)) as [-> | Hai].
      * rewrite list_lookup_insert_eq in Ha by (by eapply lookup_lt_Some).
        injection Ha as <-. simpl. set_solver.
      * rewrite list_lookup_insert_ne in Ha by done.
        apply elem_of_union_r. eauto.
  - (* reject *)
    unfold LoadOrStore, bind, get, ret, set_processing in Hrun.
    destruct (decide (t_path t ∈ processing w)) as [Hin | ?]; [| done].
    injection Hrun as <-. split.
    + intros a b ta tb Hab Ha Hb Hpa Hpb. simpl in Ha, Hb.
      destruct (decide (a = i)) as [-> | Hai].
      { rewrite list_lookup_insert_eq in Ha by (by eapply lookup_lt_Some).
        injection Ha as <-. done. }
      destruct (decide (b = i)) as [-> | Hbi].
      { rewrite list_lookup_insert_eq in Hb by (by eapply lookup_lt_Some).
        injection Hb as <-. done. }
      rewrite list_lookup_insert_ne in Ha, Hb by done. eauto.
    + intros a ta Ha Hpa. simpl in Ha.
      destruct (decide (a = i)) as [-> | Hai].
      { rewrite list_lookup_insert_eq in Ha by (by eapply lookup_lt_Some).
        injection Ha as <-. done. }
      rewrite list_lookup_insert_ne in Ha by done. eauto.
  - (* work *)
    split; [done |]. intros a ta Ha Hpa. simpl in *. rewrite Hproc. eauto.
  - (* release *)
    unfold Delete, bind, get, set_processing in Hrun. injection Hrun as <-.
    simpl. split.
    + intros a b ta tb Hab Ha Hb Hpa Hpb. simpl in Ha, Hb.
      destruct (decide (a = i)) as [-> | Hai].
      { rewrite list_lookup_insert_eq in Ha by (by eapply lookup_lt_Some).
        injection Ha as <-. done. }
      destruct (decide (b = i)) as [-> | Hbi].
      { rewrite list_lookup_insert_eq in Hb by (by eapply lookup_lt_Some).
        injection Hb as <-. done. }
      rewrite list_lookup_insert_ne in Ha, Hb by done. eauto.
    + intros a ta Ha Hpa. simpl in Ha.
      destruct (decide (a = i)) as [-> | Hai].
      { rewrite list_lookup_insert_eq in Ha by (by eapply lookup_lt_Some).
        injection Ha as <-. done. }
      rewrite list_lookup_insert_ne in Ha by done.
      apply elem_of_difference. split; [eauto |].
      intros Heq%elem_of_singleton. by apply (Hex a i ta t).
Qed.

Lemma guarded_run s s' : rtc step s s' -> guarded s -> guarded s'.
Proof. induction 1; eauto using guarded_step. Qed.

Lemma guarded_start w (ts : list Task) :
  Forall (fun t => t_phase t = Waiting) ts -> guarded (w, ts).
Proof.
  intros Hall. split; simpl.
  - intros i j ti tj _ Hi _ Hpi _.
    rewrite Forall_lookup in Hall. specialize (Hall i ti Hi). congruence.
  - intros i t Hi Hp.
    rewrite Forall_lookup in Hall. specialize (Hall i t Hi). congruence.
Qed.

(** C2: [handleFile] on a path that is already claimed returns at once and
    leaves the world as it is.  On a free path the claim is stored before
    anything else happens, the rest of the call runs under it, and the
    claim is deleted whatever way the call ends, so that [processing] is
    afterwards what it was.  In every interleaving of any number of calls,
    no two of them are at work on the same path at the same time. *)
Theorem in_flight_guard (env : Env) :
  (forall w path cfg dav skip,
      path ∈ processing w -> handleFile env path cfg dav skip w = (tt, w))
  /\ (forall w path cfg dav skip,
        path ∉ processing w ->
        let claimed := snd (LoadOrStore path w) in
        path ∈ processing claimed
        /\ files claimed = files w /\ dirs claimed = dirs w /\ trace claimed = trace w
        /\ handleFile env path cfg dav skip w
           = (tt, snd (Delete path (snd (handleFile_body env path cfg dav skip claimed))))
        /\ processing (snd (handleFile env path cfg dav skip w)) = processing w)
  /\ (forall w0 (ts0 : list Task) w ts,
        Forall (fun t => t_phase t = Waiting) ts0 ->
        rtc step (w0, ts0) (w, ts) ->
        exclusive ts).
Proof.
  split; [| split].
  - intros. by apply handleFile_claimed.
  - intros. by apply handleFile_unclaimed.
  - intros w0 ts0 w ts Hstart Hrun.
    apply (guarded_run _ _ Hrun (guarded_start w0 ts0 Hstart)).
Qed.

(** A whole call of [handleFile] is a run of the interleaving semantics. *)
Lemma handleFile_is_run (env : Env) (i : nat) t w (ts : list Task) :
  ts !! i = Some t -> t_phase t = Waiting ->
  rtc step (w, ts)
    (snd (handleFile env (t_path t) (t_cfg t) (t_dav t) (t_skip t) w),
     <[i := set_phase t Returned]> ts).
Proof.
  intros Hi Hph.
  destruct (decide (t_path t ∈ processing w)) as [Hin | Hout].
  - rewrite handleFile_claimed by done. apply rtc_once.
    apply (step_reject i t w w ts Hi Hph).
    unfold LoadOrStore, bind, get, ret.
    by destruct (decide (t_path t ∈ processing w)).
  - destruct (handleFile_unclaimed env w (t_path t) (t_cfg t) (t_dav t) (t_skip t) Hout)
      as (_ & _ & _ & _ & -> & _).
    rewrite (LoadOrStore_free w _ Hout). cbn [snd].
    set (w1 := mkWorld _ _ _ _ _).
    set (w2 := snd (handleFile_body env (t_path t) (t_cfg t) (t_dav t) (t_skip t) w1)).
    assert (Hi1 : <[i := set_phase t Working]> ts !! i = Some (set_phase t Working))
      by (apply list_lookup_insert_eq; by eapply lookup_lt_Some).
    eapply rtc_l; [apply (step_claim i t w w1 ts Hi Hph), LoadOrStore_free, Hout |].
    eapply rtc_l; [apply (step_work i _ w1 w2 _ Hi1 eq_refl), keeps_handleFile_body |].
    replace (<[i := set_phase t Returned]> ts)
      with (<[i := set_phase (set_phase t Working) Returned]>
              (<[i := set_phase t Working]> ts))
      by (by rewrite list_insert_insert_eq).
    apply rtc_once. apply (step_release i _ w2 _ _ Hi1 eq_refl).
    unfold Delete, bind, get, set_processing. reflexivity.
Qed.

(** *** The duplicate check *)

(** C4, amended: the duplicate check is made exactly when the matched rule
    has [skip_duplicates], whether or not the call is part of the startup
    scan and whatever the action: without the flag the file is
    transferred, with it and no hit as well.  On a hit with a move action
    the source is removed and nothing else is done, so no destination file
    is created; on a hit with any other action nothing is done at all and
    the source stays. *)
Theorem duplicate_policy (env : Env) (w : World) (path : string) (cfg : Config)
    (dav : bool) (r : Rule) (destDir : string) (data : string) :
  files w !! path = Some data ->
  let run := dispatchRule env path cfg dav r destDir w in
  (SkipDuplicates r = false -> run = transfer env path cfg dav r destDir w)
  /\ (SkipDuplicates r = true ->
      fileExistsWithSameSize env w path destDir = false ->
      run = transfer env path cfg dav r destDir w)
  /\ (SkipDuplicates r = true ->
      fileExistsWithSameSize env w path destDir = true ->
      Action r = "move" ->
      faulty env (OpRemove path) = false ->
      files (snd run) = delete path (files w)
      /\ dirs (snd run) = dirs w
      /\ trace (snd run)
         = (trace w ++ [EvSys (OpRemove path) true (delete path (files w));
                        EvLog (LogDeletedDuplicate (Filepath.Base path) (Name r))])%list)
  /\ (SkipDuplicates r = true ->
      fileExistsWithSameSize env w path destDir = true ->
      Action r <> "move" ->
      files (snd run) = files w
      /\ dirs (snd run) = dirs w
      /\ trace (snd run)
         = (trace w ++ [EvLog (LogSkipExists (Filepath.Base path) (Name r))])%list).
Proof.
  intros Hsrc run. subst run. unfold dispatchRule, bind, get.
  cbv beta iota zeta.
  split; [| split; [| split]].
  - by intros ->.
  - by intros -> ->.
  - intros -> -> -> Hrm. simpl.
    unfold os_Remove, sys, log, bind, get, ret, set_files, emit. simpl.
    rewrite Hrm, Hsrc. rewrite bool_decide_eq_true_2 by eauto. simpl.
    by rewrite <- app_assoc.
  - intros -> -> Hact. apply String.eqb_neq in Hact. rewrite Hact. done.
Qed.

Lemma duplicate_policy_witness :
  let run := dispatchRule Examples.quiet "/in/a.txt"
               (Examples.config [Examples.move_rule]) false Examples.move_rule "/out"
               Examples.restarted in
  files (snd run) = delete "/in/a.txt" (files Examples.restarted)
  /\ dirs (snd run) = dirs Examples.restarted
  /\ trace (snd run)
     = (trace Examples.restarted
        ++ [EvSys (OpRemove "/in/a.txt") true (delete "/in/a.txt" (files Examples.restarted));
            EvLog (LogDeletedDuplicate (Filepath.Base "/in/a.txt") (Name Examples.move_rule))])%list.
Proof.
  apply (proj1 (proj2 (proj2
           (duplicate_policy Examples.quiet Examples.restarted "/in/a.txt"
              (Examples.config [Examples.move_rule]) false Examples.move_rule "/out"
              "hello" ltac:(vm_compute; reflexivity)))));
    vm_compute; reflexivity.
Defined.

(** C4, as stated, fails: in the startup scan, a copy rule without
    [skip_duplicates] meets a file whose name and size are already in the
    destination; no duplicate check is made and the file is copied again,
    to [a (2).txt]. *)
Lemma startup_copy_counterexample :
  fileExistsWithSameSize Examples.quiet Examples.restarted "/in/a.txt" "/out" = true
  /\ files Examples.restarted !! "/out/a (2).txt" = None
  /\ files (snd (handleFile Examples.quiet "/in/a.txt"
                   (Examples.config [Examples.copy_rule]) false true Examples.restarted))
       !! "/out/a (2).txt" = Some "hello".
Proof. split; [| split]; vm_compute; reflexivity. Qed.

(** * Further properties of [main.go] *)

(** ** Home expansion and matching *)

(** X1: [expandHome] fails exactly when the path starts with a tilde and
    the home directory cannot be determined; every other path, the empty
    one included, is handed back without a look at the environment. *)
Theorem expandHome_error_iff (env : Env) (p : string) :
  (snd (expandHome env p) <> None
   <-> Strings.HasPrefix p "~" = true /\ UserHomeDir env = None)
  /\ (Strings.HasPrefix p "~" = false -> expandHome env p = (p, None)).
Proof.
  unfold expandHome.
  destruct (String.eqb_spec p "") as [-> | Hne].
  { split; [| done]. split; [done | intros [? _]; done]. }
  destruct (Strings.HasPrefix p "~") eqn:Hpre.
  - split; [| done]. destruct (UserHomeDir env) as [home |].
    + destruct (String.eqb p "~"); simpl; split; try done; intros [_ ?]; done.
    + simpl. split; [done | done].
  - split; [| done]. split; [done | intros [? _]; done].
Qed.

Lemma prefix_app (p s : string) : String.prefix p (p ++ s) = true.
Proof.
  induction p as [| c p IH]; simpl; [by destruct s |].
  destruct (ascii_dec c c) as [_ | Hne]; [exact IH | by destruct Hne].
Qed.

Lemma drop_app (p s : string) : Strings.drop (String.length p) (p ++ s) = s.
Proof. induction p as [| c p IH]; simpl; [by destruct s | done]. Qed.

(** X2: with a home directory, ["~"] is the home directory itself and
    ["~/rest"] is [rest] joined onto it. *)
Theorem expandHome_home_relative (env : Env) (home rest : string) :
  UserHomeDir env = Some home ->
  expandHome env "~" = (home, None)
  /\ expandHome env ("~/" ++ rest) = (Filepath.Join [home; rest], None).
Proof.
  intros Hhome. unfold expandHome. split.
  - simpl. by rewrite Hhome.
  - change (("~/" ++ rest) =? "")%string with false.
    change (Strings.HasPrefix ("~/" ++ rest) "~") with true.
    cbv iota. rewrite Hhome.
    replace (("~/" ++ rest) =? "~")%string with false.
    2: { symmetry. apply String.eqb_neq. simpl. by intros [= H]. }
    unfold Strings.TrimPrefix, Strings.HasPrefix.
    rewrite (prefix_app "~/" rest).
    by rewrite (drop_app "~/" rest).
Qed.

Lemma expandHome_home_relative_witness :
  expandHome Examples.quiet "~" = ("/home/bob", None)
  /\ expandHome Examples.quiet "~/Downloads" = ("/home/bob/Downloads", None).
Proof.
  exact (expandHome_home_relative Examples.quiet "/home/bob" "Downloads" eq_refl).
Defined.

(** X3: the ignore list is matched without regard to case, in the path
    and in the list alike. *)
Theorem hasIgnoredExt_case_insensitive : case_insensitive hasIgnoredExt.
Proof.
  intros s s' l l' Hs Hl. unfold hasIgnoredExt.
  apply EqualFold_true in Hs.
  rewrite <- !Ext_ToLower, Hs.
  generalize (Filepath.Ext (Strings.ToLower s')) as ext. intros ext.
  induction Hl as [| a b l l' Hab _ IH]; [done |]. simpl.
  rewrite IH. f_equal.
  apply EqualFold_true in Hab. unfold Strings.EqualFold. by rewrite Hab.
Qed.

(** X4: a rule that lists no pattern, no extension and no MIME prefix is
    never chosen, whatever the file. *)
Theorem chooseRule_needs_criterion (env : Env) (w : World) (path : string)
    (rules : list Rule) :
  match chooseRule env w path rules with
  | Some (_, r) => Patterns r <> [] \/ Extensions r <> [] \/ MIMEPrefixes r <> []
  | None => True
  end.
Proof.
  pose proof (chooseRule_loop_first (Filepath.Base path) (detectMIME env w path) rules 0) as H.
  unfold chooseRule.
  destruct (chooseRule_loop _ _ 0 rules) as [[i r] |]; [| done].
  destruct H as (_ & _ & _ & Hap & _).
  apply ruleApplies_true in Hap.
  destruct Hap as [H | [H | H]].
  - left. intros Hnil. rewrite Hnil in H. done.
  - right. left. intros Hnil. rewrite Hnil in H. done.
  - right. right. intros Hnil. rewrite Hnil in H. done.
Qed.

(** X5: a type found in the extension table decides the content type
    without a look at the file; when the table has none and nothing can be
    opened at the path, the type is empty and no MIME prefix matches. *)
Theorem detectMIME_sources (env : Env) (w : World) (path : string) :
  let ext := Strings.ToLower (Filepath.Ext path) in
  (ext <> "" -> TypeByExtension env ext <> "" ->
   detectMIME env w path = TypeByExtension env ext)
  /\ ((ext = "" \/ TypeByExtension env ext = "") ->
      os_Stat env w path = None ->
      detectMIME env w path = ""
      /\ forall prefixes, mimePrefixMatches (detectMIME env w path) prefixes = false).
Proof.
  intros ext. unfold detectMIME. fold ext. split.
  - intros Hext Hmt.
    apply String.eqb_neq in Hext, Hmt. by rewrite Hext, Hmt.
  - intros Hnone Hstat.
    assert (Hmt : (if (ext =? "")%string then "" else TypeByExtension env ext) = "").
    { destruct Hnone as [-> | ->]; [done | by destruct (ext =? "")%string]. }
    rewrite Hmt. simpl.
    unfold os_Open, bind, get, ret. simpl. rewrite Hstat.
    assert (Hempty : (if faulty env (OpOpen path)
                      then Some (EFailed (OpOpen path)) else Some (ENotExist path))
                     <> None) by (by destruct (faulty env (OpOpen path))).
    destruct (if faulty env (OpOpen path) then _ else _); [| done].
    split; [done |]. intros prefixes. unfold mimePrefixMatches.
    by rewrite orb_true_r.
Qed.

Lemma Match_loop_error fuel pattern name :
  snd (Glob.Match_loop fuel pattern name) = true ->
  fst (Glob.Match_loop fuel pattern name) = false.
Proof.
  revert pattern name. induction fuel as [| fuel IH]; intros pattern name; simpl.
  - by destruct (pattern =? "")%string.
  - destruct (pattern =? "")%string; [done |].
    destruct (Glob.scanChunk pattern) as [[star chunk] rest].
    destruct (star && (chunk =? "")%string); [done |].
    assert (Hretry :
      snd (if star
           then match Glob.star_scan chunk (rest =? "")%string name with
                | Glob.ChunkOk t => Glob.Match_loop fuel rest t
                | Glob.ChunkErr => (false, true)
                | Glob.ChunkFail => (false, Glob.rest_bad fuel rest)
                end
           else (false, Glob.rest_bad fuel rest)) = true ->
      fst (if star
           then match Glob.star_scan chunk (rest =? "")%string name with
                | Glob.ChunkOk t => Glob.Match_loop fuel rest t
                | Glob.ChunkErr => (false, true)
                | Glob.ChunkFail => (false, Glob.rest_bad fuel rest)
                end
           else (false, Glob.rest_bad fuel rest)) = false).
    { destruct star; [| done].
      destruct (Glob.star_scan chunk (rest =? "")%string name); [done | done | apply IH]. }
    destruct (Glob.matchChunk chunk name) as [| | t]; [done | exact Hretry |].
    destruct ((t =? "")%string || negb (rest =? "")%string); [apply IH | exact Hretry].
Qed.

(** X6: a malformed glob in a rule is passed over: it matches nothing and
    does not keep the patterns after it from matching. *)
Theorem anyPatternMatch_skips_bad_pattern (name g : string) (patterns : list string) :
  snd (Glob.Match g name) = true ->
  anyPatternMatch name (g :: patterns) = anyPatternMatch name patterns.
Proof.
  intros Hbad.
  assert (H : fst (Glob.Match g name) = false) by (by apply Match_loop_error).
  unfold anyPatternMatch. cbn [length Nat.eqb existsb]. rewrite H.
  by destruct patterns.
Qed.

Lemma anyPatternMatch_skips_bad_pattern_witness :
  anyPatternMatch "report.pdf" ["[a-"; "*.pdf"] = anyPatternMatch "report.pdf" ["*.pdf"].
Proof.
  apply anyPatternMatch_skips_bad_pattern. reflexivity.
Defined.

Lemma ext_scan_shape s e :
  Filepath.ext_scan s = Some e ->
  e = "" \/ exists r, e = String "." r /\ Strings.Contains_byte r "." = false.
Proof.
  revert e. induction s as [| c s IH]; intros e; simpl; [done |].
  destruct (Filepath.ext_scan s) as [e' |] eqn:Hs.
  - intros [= <-]. by apply IH.
  - destruct (Ascii.eqb c ".") eqn:Hc.
    + intros [= <-]. right. apply Ascii.eqb_eq in Hc as ->.
      exists s. split; [done |].
      clear IH. induction s as [| d s IH]; [done |]. simpl in *.
      destruct (Filepath.ext_scan s); [done |].
      destruct (Ascii.eqb d "."); [done |]. simpl.
      apply IH. by destruct (Ascii.eqb d "/").
    + destruct (Ascii.eqb c "/"); [| done]. intros [= <-]. by left.
Qed.

Lemma Contains_dot_ToLower s :
  Strings.Contains_byte (Strings.ToLower s) "." = Strings.Contains_byte s ".".
Proof.
  induction s as [| c s IH]; [done |]. simpl.
  by rewrite lower_byte_eqb_dot, IH.
Qed.

Lemma bare_ext_no_dot name :
  Strings.Contains_byte
    (Strings.TrimPrefix (Strings.ToLower (Filepath.Ext name)) ".") "." = false.
Proof.
  rewrite <- Ext_ToLower. unfold Filepath.Ext.
  destruct (Filepath.ext_scan (Strings.ToLower name)) as [e |] eqn:He; [| done].
  apply ext_scan_shape in He as [-> | (r & -> & Hr)]; [done |].
  simpl. unfold Strings.TrimPrefix, Strings.HasPrefix. simpl.
  by destruct r.
Qed.

(** X7: an entry of a rule's extension list that contains a dot, such as
    [".pdf"] or ["tar.gz"], matches no file name: the list behaves as if
    the entry were not there. *)
Theorem extMatches_dotted_entry (name e : string) (exts : list string) :
  Strings.Contains_byte e "." = true ->
  extMatches name (e :: exts) = extMatches name exts.
Proof.
  intros He. unfold extMatches. cbn [length Nat.eqb existsb].
  assert (Hne : Strings.EqualFold e
                  (Strings.TrimPrefix (Strings.ToLower (Filepath.Ext name)) ".") = false).
  { unfold Strings.EqualFold. apply String.eqb_neq. intros Heq.
    pose proof (bare_ext_no_dot name) as Hno.
    rewrite <- Contains_dot_ToLower, <- Heq, Contains_dot_ToLower in Hno.
    congruence. }
  rewrite Hne. by destruct exts.
Qed.

Lemma extMatches_dotted_entry_witness :
  extMatches "archive.tar.gz" ["tar.gz"; "gz"] = extMatches "archive.tar.gz" ["gz"].
Proof.
  apply extMatches_dotted_entry. reflexivity.
Defined.

(** ** The wait for a stable size *)

Section Waiting.

Variable env : Env.

Lemma waitLoop_agreeing path settle poll deadline :
  (forall k s, observe env path k = Some s -> 0 <= s) ->
  forall fuel w n lastSize stableFor,
    (n = 0%nat /\ lastSize = -1
     \/ exists n', n = S n' /\ observe env path n' = Some lastSize) ->
    match waitLoop env fuel path settle poll deadline n lastSize stableFor w with
    | (Some None, w') =>
        exists k s,
          (n <= S k)%nat
          /\ observe env path k = Some s /\ observe env path (S k) = Some s
          /\ trace w' = (trace w ++ polls env path n (S (S k) - n))%list
    | _ => True
    end.
Proof.
  intros Hsize. induction fuel as [| fuel IH]; intros w n lastSize sf Hinv; [done |].
  simpl waitLoop. unfold bind at 1, get at 1.
  destruct (now w <? deadline); [| done].
  unfold poll_Stat, bind, get, set_now, emit, ret. cbn [fst snd now trace].
  destruct (observe env path n) as [size |] eqn:Hobs; [| done].
  assert (Hnext : forall ls sf' w1,
    trace w1 = (trace w ++ [EvPoll path (Some size)])%list ->
    observe env path n = Some ls ->
    match waitLoop env fuel path settle poll deadline (S n) ls sf' w1 with
    | (Some None, w') =>
        exists k s,
          (n <= S k)%nat
          /\ observe env path k = Some s /\ observe env path (S k) = Some s
          /\ trace w' = (trace w ++ polls env path n (S (S k) - n))%list
    | _ => True
    end).
  { intros ls sf' w1 Htr Hls.
    pose proof (IH w1 (S n) ls sf') as Hrec.
    destruct (waitLoop env fuel path settle poll deadline (S n) ls sf' w1)
      as [[[e |] |] w']; try done.
    destruct Hrec as (k & s & Hk & Hk1 & Hk2 & Hk3); [right; by exists n |].
    exists k, s. split; [lia |]. split; [done |]. split; [done |].
    rewrite Hk3, Htr, <- app_assoc. f_equal.
    replace (S (S k) - n)%nat with (S (S (S k) - S n)) by lia.
    unfold polls. simpl. by rewrite Hobs. }
  destruct (Z.eqb_spec size lastSize) as [Heq | Hne].
  - subst lastSize. destruct Hinv as [[-> ->] | (n' & -> & Hn')].
    { apply Hsize in Hobs. lia. }
    destruct (wrap64 (sf + poll) >=? settle).
    + exists n', size. cbn [fst snd trace].
      split; [lia |]. split; [done |]. split; [done |].
      f_equal. replace (S (S n') - S n')%nat with 1%nat by lia.
      unfold polls. cbn [seq map]. by rewrite Hobs.
    + unfold time_Sleep, bind, get, set_now. cbn [fst snd].
      by apply Hnext.
  - unfold time_Sleep, bind, get, set_now. cbn [fst snd].
    by apply Hnext.
Qed.

(** X8: the file is declared stable only after at least two polls, the
    last two of which found the same size; the first sample alone never
    suffices, whatever the settle time. *)
Theorem waitUntilStable_two_equal_samples (w : World) (path : string) (settle poll : Z) :
  (forall k s, observe env path k = Some s -> 0 <= s) ->
  fst (waitUntilStable env path settle poll w) = None ->
  exists k s,
    observe env path k = Some s /\ observe env path (S k) = Some s
    /\ trace (snd (waitUntilStable env path settle poll w))
       = (trace w ++ polls env path 0 (S (S k)))%list.
Proof.
  intros Hsize.
  pose proof (waitLoop_agreeing path settle poll (now w + safety) Hsize
                (S (rounds env)) w 0%nat (-1) 0) as Hag.
  unfold waitUntilStable, bind, get, ret.
  destruct (waitLoop env (S (rounds env)) path settle poll (now w + safety) 0 (-1) 0 w)
    as [[[e |] |] w']; cbn [fst snd default]; try done.
  intros _. destruct Hag as (k & s & _ & Hk1 & Hk2 & Hk3); [by left |].
  exists k, s. split; [done |]. split; [done |].
  by rewrite Hk3, Nat.sub_0_r.
Qed.

Lemma waitLoop_verdict path settle poll deadline :
  forall fuel w n lastSize stableFor,
    match waitLoop env fuel path settle poll deadline n lastSize stableFor w with
    | (None, _) | (Some None, _) => True
    | (Some (Some ENotStable), w') => deadline <= now w'
    | (Some (Some (ENotExist p)), w') =>
        p = path /\ exists evs, trace w' = (evs ++ [EvPoll path None])%list
    | (Some (Some _), _) => False
    end.
Proof.
  induction fuel as [| fuel IH]; intros w n lastSize sf; [done |].
  simpl waitLoop. unfold bind at 1, get at 1.
  destruct (Z.ltb_spec (now w) deadline); [| simpl; lia].
  unfold poll_Stat, bind, get, set_now, emit, ret. cbn [fst snd now trace].
  destruct (observe env path n) as [size |].
  - destruct (size =? lastSize).
    + destruct (wrap64 (sf + poll) >=? settle); [done |]. apply IH.
    + apply IH.
  - split; [done |]. by eexists.
Qed.

(** X9: the wait reports three things only: success, the stat error of a
    poll that found the file gone (that poll is then the last thing it
    did), or the timeout, and the timeout never before the five minutes
    are over. *)
Theorem waitUntilStable_verdicts (w : World) (path : string) (settle poll : Z) :
  match waitUntilStable env path settle poll w with
  | (None, _) => True
  | (Some ENotStable, w') => now w + safety <= now w'
  | (Some (ENotExist p), w') =>
      p = path /\ exists evs, trace w' = (evs ++ [EvPoll path None])%list
  | (Some _, _) => False
  end.
Proof.
  pose proof (waitLoop_verdict path settle poll (now w + safety) (S (rounds env)) w 0 (-1) 0) as Hv.
  pose proof (waitLoop_terminates env path settle poll (now w + safety) (rounds env)
                w 0%nat (-1) 0) as Hterm.
  unfold waitUntilStable, bind, get, ret.
  destruct (waitLoop env (S (rounds env)) path settle poll (now w + safety) 0 (-1) 0 w)
    as [[r |] w'].
  - exact Hv.
  - exfalso. apply Hterm; [| done].
    pose proof (rounds_cover env). lia.
Qed.

Lemma waitLoop_clock path settle poll deadline :
  forall fuel w n lastSize stableFor,
    match waitLoop env fuel path settle poll deadline n lastSize stableFor w with
    | (_, w') =>
        now w <= now w'
        /\ now w' <= Z.max (now w) (deadline - 1 + Z.pos (tick env) + Z.max poll 0)
    end.
Proof.
  induction fuel as [| fuel IH]; intros w n lastSize sf.
  { simpl waitLoop. unfold ret. lia. }
  simpl waitLoop. unfold bind at 1, get at 1.
  destruct (Z.ltb_spec (now w) deadline); [| unfold ret; cbv beta iota; lia].
  unfold poll_Stat, bind, get, set_now, emit, ret. cbn [fst snd now trace].
  assert (Hnext : forall ls sf' evs,
    match waitLoop env fuel path settle poll deadline (S n) ls sf'
            (mkWorld (files w) (dirs w) (processing w)
               (now w + Z.pos (tick env) + Z.max poll 0) evs) with
    | (_, w') =>
        now w <= now w'
        /\ now w' <= Z.max (now w) (deadline - 1 + Z.pos (tick env) + Z.max poll 0)
    end).
  { intros ls sf' evs.
    pose proof (IH (mkWorld (files w) (dirs w) (processing w)
                      (now w + Z.pos (tick env) + Z.max poll 0) evs) (S n) ls sf') as Hw.
    destruct (waitLoop env fuel path settle poll deadline (S n) ls sf' _) as [r w'].
    cbn [now] in Hw. lia. }
  destruct (observe env path n) as [size |]; [| cbn [now]; lia].
  destruct (size =? lastSize).
  - destruct (wrap64 (sf + poll) >=? settle); [cbn [now]; lia |].
    unfold time_Sleep, bind, get, set_now. cbn [fst snd now files dirs processing trace].
    apply Hnext.
  - unfold time_Sleep, bind, get, set_now. cbn [fst snd now files dirs processing trace].
    apply Hnext.
Qed.

(** X10: the wait always comes to an end: the loop stops of its own
    accord, the clock never runs backwards, and the call is over less than
    one poll and one sleep after the five-minute deadline. *)
Theorem waitUntilStable_bounded (w : World) (path : string) (settle poll : Z) :
  fst (waitLoop env (S (rounds env)) path settle poll (now w + safety) 0 (-1) 0 w) <> None
  /\ now w <= now (snd (waitUntilStable env path settle poll w))
             < now w + safety + Z.pos (tick env) + Z.max poll 0.
Proof.
  split.
  - apply waitLoop_terminates. pose proof (rounds_cover env). lia.
  - pose proof (waitLoop_clock path settle poll (now w + safety) (S (rounds env)) w 0 (-1) 0)
      as Hc.
    unfold waitUntilStable, bind, get, ret.
    destruct (waitLoop env (S (rounds env)) path settle poll (now w + safety) 0 (-1) 0 w)
      as [r w'].
    cbn [fst snd]. assert (0 < safety) by done. lia.
Qed.

Lemma waitLoop_frame path settle poll deadline :
  forall fuel w n lastSize stableFor,
    match waitLoop env fuel path settle poll deadline n lastSize stableFor w with
    | (_, w') =>
        files w' = files w /\ dirs w' = dirs w /\ processing w' = processing w
    end.
Proof.
  induction fuel as [| fuel IH]; intros w n lastSize sf; [done |].
  simpl waitLoop. unfold bind at 1, get at 1.
  destruct (now w <? deadline); [| done].
  unfold poll_Stat, bind, get, set_now, emit, ret. cbn [fst snd now trace].
  assert (Hnext : forall ls sf' t evs,
    match waitLoop env fuel path settle poll deadline (S n) ls sf'
            (mkWorld (files w) (dirs w) (processing w) t evs) with
    | (_, w') =>
        files w' = files w /\ dirs w' = dirs w /\ processing w' = processing w
    end).
  { intros ls sf' t evs.
    apply (IH (mkWorld (files w) (dirs w) (processing w) t evs)). }
  destruct (observe env path n) as [size |]; [| done].
  destruct (size =? lastSize).
  - destruct (wrap64 (sf + poll) >=? settle); [done |].
    unfold time_Sleep, bind, get, set_now. cbn [fst snd now files dirs processing trace].
    apply Hnext.
  - unfold time_Sleep, bind, get, set_now. cbn [fst snd now files dirs processing trace].
    apply Hnext.
Qed.

(** X11: waiting only looks: whatever the verdict, the files, the
    directories and the set of paths in flight are as they were. *)
Theorem waitUntilStable_only_looks (w : World) (path : string) (settle poll : Z) :
  let w' := snd (waitUntilStable env path settle poll w) in
  files w' = files w /\ dirs w' = dirs w /\ processing w' = processing w.
Proof.
  pose proof (waitLoop_frame path settle poll (now w + safety) (S (rounds env)) w 0 (-1) 0)
    as Hf.
  unfold waitUntilStable, bind, get, ret.
  by destruct (waitLoop env (S (rounds env)) path settle poll (now w + safety) 0 (-1) 0 w).
Qed.

End Waiting.

Lemma waitUntilStable_two_equal_samples_witness :
  exists k s,
    observe Examples.quiet "/in/f" k = Some s
    /\ observe Examples.quiet "/in/f" (S k) = Some s
    /\ trace (snd (waitUntilStable Examples.quiet "/in/f"
                     (300 * Examples.millisecond) (150 * Examples.millisecond)
                     Examples.idle))
       = (trace Examples.idle ++ polls Examples.quiet "/in/f" 0 (S (S k)))%list.
Proof.
  apply (waitUntilStable_two_equal_samples Examples.quiet Examples.idle "/in/f"
           (300 * Examples.millisecond) (150 * Examples.millisecond)).
  - intros k s. simpl. intros [= <-]. lia.
  - vm_compute. reflexivity.
Defined.

(** ** What a transfer touches *)

Section Moving.

Variable env : Env.

Ltac wp_step :=
  lazymatch goal with
  | |- wp (os_Rename _ _ _) _ _ => apply wp_Rename
  | |- wp (os_Open _ _) _ _ => apply wp_Open
  | |- wp (ensureDir _ _) _ _ => apply wp_MkdirAll
  | |- wp (os_Create _ _) _ _ => apply wp_Create
  | |- wp (io_Copy _ _ _) _ _ => apply wp_Copy
  | |- wp (file_Sync _ _) _ _ => apply wp_Sync
  | |- wp (file_Close _ _) _ _ => apply wp_Close
  | |- wp (os_Remove _ _) _ _ => apply wp_Remove
  | |- wp (bind _ _) _ _ => apply wp_bind
  | |- wp (ret _) _ _ => apply wp_ret
  end; cbv beta iota zeta;
  unfold upd; cbn [files dirs processing now trace]; intros.



(** X12: whether it succeeds or fails, and whichever step fails, a move
    changes no file other than the source, the destination and the
    destination's [.tmp] companion. *)
Theorem atomicMove_touches (w : World) (src dst : string) :
  forall p, p <> src -> p <> dst -> p <> dst ++ ".tmp" ->
    files (snd (atomicMove env src dst w)) !! p = files w !! p.
Proof.
  intros p Hsrc Hdst Htmp.
  change (wp (atomicMove env src dst) w (fun _ w' => files w' !! p = files w !! p)).
  unfold atomicMove.
  repeat wp_step.
  all: by simplify_map_eq.
Qed.

(** X13: a move that reports success has moved the file: the destination
    holds the bytes the source had and the source is gone.  When it was
    done by copying, nothing is left under the destination's [.tmp] name,
    not even a file that was there before. *)
Theorem atomicMove_moves (w : World) (src dst : string) :
  src <> dst -> src <> dst ++ ".tmp" ->
  fst (atomicMove env src dst w) = None ->
  exists d,
    files w !! src = Some d
    /\ files (snd (atomicMove env src dst w)) !! dst = Some d
    /\ files (snd (atomicMove env src dst w)) !! src = None
    /\ (fst (os_Rename env src dst w) <> None ->
        files (snd (atomicMove env src dst w)) !! (dst ++ ".tmp") = None).
Proof.
  intros Hne Hsrc.
  pose proof (tmp_name_fresh dst) as Htmp.
  change (wp (atomicMove env src dst) w (fun err w' =>
    err = None ->
    exists d,
      files w !! src = Some d
      /\ files w' !! dst = Some d
      /\ files w' !! src = None
      /\ (fst (os_Rename env src dst w) <> None ->
          files w' !! (dst ++ ".tmp") = None))).
  unfold atomicMove.
  repeat wp_step.
  all: try done.
  all: simplify_map_eq.
  all: try (eexists; split; [done |]; split; [done |]; split; [done |];
            intros ?; by simplify_map_eq).
Qed.

End Moving.

Lemma atomicMove_touches_witness :
  files (snd (atomicMove othervolume "/in/a.txt" "/out/a.txt" stale)) !! "/out/b.txt"
  = files stale !! "/out/b.txt".
Proof.
  apply (atomicMove_touches othervolume stale "/in/a.txt" "/out/a.txt" "/out/b.txt"); done.
Defined.

Lemma atomicMove_moves_witness :
  exists d,
    files stale !! "/in/a.txt" = Some d
    /\ files (snd (atomicMove othervolume "/in/a.txt" "/out/a.txt" stale)) !! "/out/a.txt"
       = Some d
    /\ files (snd (atomicMove othervolume "/in/a.txt" "/out/a.txt" stale)) !! "/in/a.txt"
       = None
    /\ (fst (os_Rename othervolume "/in/a.txt" "/out/a.txt" stale) <> None ->
        files (snd (atomicMove othervolume "/in/a.txt" "/out/a.txt" stale))
          !! ("/out/a.txt" ++ ".tmp") = None).
Proof.
  apply (atomicMove_moves othervolume stale "/in/a.txt" "/out/a.txt").
  - done.
  - done.
  - vm_compute. reflexivity.
Defined.

(** ** What a dispatch leaves alone *)
















Section Sparing.

Variable env : Env.

(** What [handleFile] and [uniquePath] take an error of [os.Stat] to mean:
    no file is there. *)
Hypothesis Stat_error_means_absent :
  forall w p, os_Stat env w p = None -> files w !! p = None.













End Sparing.


(** ** The scan at startup *)

Lemma timeless_ret {A} (a : A) : timeless (ret a).
Proof. done. Qed.

Lemma timeless_bind {A B} (m : M A) (k : A -> M B) :
  timeless m -> (forall a, timeless (k a)) -> timeless (bind m k).
Proof.
  intros Hm Hk w. unfold bind. specialize (Hm w).
  destruct (m w) as [a w1]. simpl in Hm. rewrite <- Hm. apply Hk.
Qed.

Lemma timeless_get : timeless get.
Proof. done. Qed.

Lemma timeless_emit e : timeless (emit e).
Proof. done. Qed.

Lemma timeless_set_files f : timeless (set_files f).
Proof. done. Qed.

Lemma timeless_set_dirs d : timeless (set_dirs d).
Proof. done. Qed.

Lemma timeless_set_processing s : timeless (set_processing s).
Proof. done. Qed.

Ltac timeless_step :=
  first
    [ apply timeless_ret | apply timeless_get | apply timeless_emit
    | apply timeless_set_files | apply timeless_set_dirs
    | apply timeless_set_processing
    | assumption
    | apply timeless_bind; [| intros ?]
    | match goal with
      | |- timeless (match ?x with _ => _ end) => destruct x
      | |- timeless (if ?b then _ else _) => destruct b
      end ].

Ltac timeless_all := repeat (solve [auto] || timeless_step).

Section Startup.

Variable env : Env.

Lemma timeless_sys o after : timeless (sys o after).
Proof. unfold sys. timeless_all. Qed.

Lemma timeless_Rename a b : timeless (os_Rename env a b).
Proof. pose proof timeless_sys. unfold os_Rename. timeless_all. Qed.

Lemma timeless_Open p : timeless (os_Open env p).
Proof. unfold os_Open. timeless_all. Qed.

Lemma timeless_ensureDir d : timeless (ensureDir env d).
Proof. pose proof timeless_sys. unfold ensureDir, os_MkdirAll. timeless_all. Qed.

Lemma timeless_Create p : timeless (os_Create env p).
Proof. pose proof timeless_sys. unfold os_Create. timeless_all. Qed.

Lemma timeless_Copy a b : timeless (io_Copy env a b).
Proof. pose proof timeless_sys. unfold io_Copy. timeless_all. Qed.

Lemma timeless_Sync p : timeless (file_Sync env p).
Proof. pose proof timeless_sys. unfold file_Sync. timeless_all. Qed.

Lemma timeless_Close p : timeless (file_Close env p).
Proof. pose proof timeless_sys. unfold file_Close. timeless_all. Qed.

Lemma timeless_Remove p : timeless (os_Remove env p).
Proof. pose proof timeless_sys. unfold os_Remove. timeless_all. Qed.

Lemma timeless_atomicMove src dst : timeless (atomicMove env src dst).
Proof.
  pose proof timeless_Rename. pose proof timeless_Open. pose proof timeless_ensureDir.
  pose proof timeless_Create. pose proof timeless_Copy. pose proof timeless_Sync.
  pose proof timeless_Close. pose proof timeless_Remove.
  unfold atomicMove. timeless_all.
Qed.

Lemma timeless_copyTo src dst : timeless (copyTo env src dst).
Proof.
  pose proof timeless_Open. pose proof timeless_ensureDir.
  pose proof timeless_Create. pose proof timeless_Copy. pose proof timeless_Sync.
  pose proof timeless_Close.
  unfold copyTo. timeless_all.
Qed.

Lemma timeless_log l : timeless (log l).
Proof. apply timeless_emit. Qed.

Lemma timeless_transfer path cfg dav r destDir :
  timeless (transfer env path cfg dav r destDir).
Proof.
  pose proof timeless_atomicMove. pose proof timeless_copyTo. pose proof timeless_log.
  unfold transfer, notifyUser, davUpload. timeless_all.
Qed.

Lemma timeless_dispatchRule path cfg dav r destDir :
  timeless (dispatchRule env path cfg dav r destDir).
Proof.
  pose proof timeless_transfer. pose proof timeless_Remove. pose proof timeless_log.
  unfold dispatchRule. timeless_all.
Qed.

Lemma timeless_handleFile path cfg dav : timeless (handleFile env path cfg dav true).
Proof.
  pose proof timeless_dispatchRule. pose proof timeless_ensureDir.
  pose proof timeless_log.
  unfold handleFile, handleFile_body, LoadOrStore, Delete. timeless_all.
Qed.

Lemma keeps_handleFile path cfg dav skip : keeps (handleFile env path cfg dav skip).
Proof.
  intros w. destruct (decide (path ∈ processing w)) as [Hin | Hout].
  - by rewrite handleFile_claimed.
  - by destruct (handleFile_unclaimed env w path cfg dav skip Hout) as (_ & _ & _ & _ & _ & ?).
Qed.

(** X15: the scan of the watch directory at startup runs straight
    through: it never polls a file and never sleeps, so the clock at its
    end is the clock at its start; and every path it has claimed is
    released again, the set of paths in flight ending as it began. *)
Theorem startupScan_runs_through (watch : string) (entries : list DirEntry)
    (cfg : Config) (dav : bool) :
  timeless (startupScan env watch entries cfg dav)
  /\ keeps (startupScan env watch entries cfg dav).
Proof.
  split.
  - induction entries as [| e rest IH]; simpl; [apply timeless_ret |].
    apply timeless_bind; [| by intros _].
    destruct (de_isDir e); [apply timeless_ret | apply timeless_handleFile].
  - induction entries as [| e rest IH]; simpl; [apply keeps_ret |].
    apply keeps_bind; [| by intros _].
    destruct (de_isDir e); [apply keeps_ret | apply keeps_handleFile].
Qed.

(** ** Events that are not acted on *)

(** X16: an event for a path where nothing exists any more, or for a
    directory, is dropped without a trace: no log line, no change, and the
    claim on the path is given back. *)
Theorem handleFile_drops_missing_and_directories (w : World) (path : string)
    (cfg : Config) (dav skip : bool) :
  match os_Stat env w path with
  | None => True
  | Some st => IsDir st = true
  end ->
  handleFile env path cfg dav skip w = (tt, w).
Proof.
  intros Hst. destruct (decide (path ∈ processing w)) as [Hin | Hout].
  { by apply handleFile_claimed. }
  unfold handleFile, bind. rewrite (LoadOrStore_free w path Hout).
  unfold handleFile_body, bind, get, ret. cbn [fst snd].
  replace (os_Stat env (mkWorld (files w) (dirs w) ({[path]} ∪ processing w) (now w) (trace w)) path)
    with (os_Stat env w path) by done.
  assert (Hback : Delete path (mkWorld (files w) (dirs w) ({[path]} ∪ processing w)
                                 (now w) (trace w)) = (tt, w)).
  { unfold Delete, bind, get, set_processing. cbn [fst snd files dirs processing now trace].
    destruct w as [f d p t tr]. cbn [files dirs processing now trace] in *.
    do 2 f_equal. set_solver. }
  destruct (os_Stat env w path) as [st |]; [| exact Hback].
  rewrite Hst. exact Hback.
Qed.

(** X17: a file with an ignored extension, a download still in progress,
    is only mentioned in the log: it is not waited for, no rule is
    consulted, and files, directories and clock stay as they are. *)
Theorem handleFile_ignored_only_logs (w : World) (path data : string)
    (cfg : Config) (dav skip : bool) :
  path ∉ processing w ->
  files w !! path = Some data ->
  hasIgnoredExt path (IgnoreExts cfg) = true ->
  handleFile env path cfg dav skip w
  = (tt, mkWorld (files w) (dirs w) (processing w) (now w)
           (trace w ++ [EvLog (LogSkipIgnored (Filepath.Base path))])).
Proof.
  intros Hout Hfile Hign.
  unfold handleFile, bind. rewrite (LoadOrStore_free w path Hout).
  unfold handleFile_body, bind, get, ret, os_Stat. cbn [fst snd files dirs].
  rewrite Hfile. cbn [IsDir]. rewrite Hign.
  unfold log, emit, Delete, bind, get, set_processing.
  cbn [fst snd files dirs processing now trace].
  do 2 f_equal. set_solver.
Qed.

Lemma chooseRule_same_files w w' path rules :
  files w' = files w -> dirs w' = dirs w ->
  chooseRule env w' path rules = chooseRule env w path rules.
Proof.
  intros Hf Hd. unfold chooseRule, detectMIME, os_Open, os_Stat, bind, get, ret.
  cbn [fst snd]. by rewrite Hf, Hd.
Qed.

Lemma handleFile_body_needs_rule w path cfg dav skip :
  match chooseRule env w path (Rules cfg) with
  | Some (_, r) => Dest r = ""
  | None => True
  end ->
  match handleFile_body env path cfg dav skip w with
  | (_, w') => files w' = files w /\ dirs w' = dirs w
  end.
Proof.
  intros Hrule. unfold handleFile_body. unfold bind at 1, get at 1.
  destruct (os_Stat env w path) as [st |]; [| done].
  destruct (IsDir st); [done |].
  destruct (hasIgnoredExt path (IgnoreExts cfg)); [done |].
  assert (Hrest : forall w1,
    files w1 = files w -> dirs w1 = dirs w ->
    match (w0 <- get;;
           match chooseRule env w0 path (Rules cfg) with
           | Some (_, r) =>
               if (Dest r =? "")%string
               then log (LogEmptyDest (Name r) (Filepath.Base path))
               else
                 err <- (if CreateDestDirs cfg then ensureDir env (Dest r) else ret None);;
                 match err with
                 | Some _ => log LogMkdirFailed
                 | None => dispatchRule env path cfg dav r (Dest r)
                 end
           | None => log (LogNoRule (Filepath.Base path))
           end) w1 with
    | (_, w') => files w' = files w /\ dirs w' = dirs w
    end).
  { intros w1 Hf Hd. unfold bind at 1, get at 1.
    rewrite (chooseRule_same_files w w1 path (Rules cfg) Hf Hd).
    destruct (chooseRule env w path (Rules cfg)) as [[i r] |]; [| done].
    rewrite Hrule. done. }
  destruct skip.
  - unfold bind at 1, ret at 1. by apply Hrest.
  - unfold bind at 1.
    pose proof (waitLoop_frame env path (wrap64 (SettleMillis cfg * 1000000))
                  (wrap64 (PollMillis cfg * 1000000)) (now w + safety)
                  (S (rounds env)) w 0 (-1) 0) as Hfr.
    unfold waitUntilStable at 1. unfold bind at 1, get at 1. unfold bind at 1.
    destruct (waitLoop env (S (rounds env)) path _ _ (now w + safety) 0 (-1) 0 w)
      as [res w1].
    destruct Hfr as (Hf & Hd & _). unfold ret at 1.
    destruct (default (Some ENotStable) res); [done |].
    by apply Hrest.
Qed.

(** X18: without a rule there is no action: when no rule matches the
    file, or the rule that matches has no destination, the dispatch
    changes neither a file nor a directory. *)
Theorem handleFile_needs_rule (w : World) (path : string) (cfg : Config)
    (dav skip : bool) :
  match chooseRule env w path (Rules cfg) with
  | Some (_, r) => Dest r = ""
  | None => True
  end ->
  files (snd (handleFile env path cfg dav skip w)) = files w
  /\ dirs (snd (handleFile env path cfg dav skip w)) = dirs w.
Proof.
  intros Hrule. destruct (decide (path ∈ processing w)) as [Hin | Hout].
  { by rewrite handleFile_claimed. }
  destruct (handleFile_unclaimed env w path cfg dav skip Hout)
    as (_ & Hf & Hd & _ & -> & _).
  unfold Delete, bind, get, set_processing. cbn [fst snd files dirs].
  pose proof (handleFile_body_needs_rule (snd (LoadOrStore path w)) path cfg dav skip) as Hb.
  destruct (handleFile_body env path cfg dav skip (snd (LoadOrStore path w))) as [u w'].
  cbn [snd]. rewrite <- Hf, <- Hd. apply Hb.
  erewrite chooseRule_same_files; [exact Hrule | done | done].
Qed.

End Startup.

Lemma handleFile_drops_missing_and_directories_witness :
  handleFile Examples.quiet "/in" (Examples.config [Examples.move_rule]) false false
    Examples.idle
  = (tt, Examples.idle).
Proof.
  apply (handleFile_drops_missing_and_directories Examples.quiet Examples.idle "/in").
  vm_compute. reflexivity.
Defined.

Lemma handleFile_ignored_only_logs_witness :
  handleFile Examples.quiet "/in/film.mkv.part" (Examples.config [Examples.move_rule])
    false false (Examples.world [("/in/film.mkv.part", "0123")] ["/in"])
  = (tt, mkWorld (files (Examples.world [("/in/film.mkv.part", "0123")] ["/in"]))
           (dirs (Examples.world [("/in/film.mkv.part", "0123")] ["/in"]))
           (processing (Examples.world [("/in/film.mkv.part", "0123")] ["/in"]))
           (now (Examples.world [("/in/film.mkv.part", "0123")] ["/in"]))
           (trace (Examples.world [("/in/film.mkv.part", "0123")] ["/in"])
            ++ [EvLog (LogSkipIgnored (Filepath.Base "/in/film.mkv.part"))])).
Proof.
  apply (handleFile_ignored_only_logs Examples.quiet
           (Examples.world [("/in/film.mkv.part", "0123")] ["/in"])
           "/in/film.mkv.part" "0123").
  - apply not_elem_of_empty.
  - vm_compute. reflexivity.
  - vm_compute. reflexivity.
Defined.

Lemma handleFile_needs_rule_witness :
  files (snd (handleFile Examples.quiet "/in/f" (Examples.config []) false false
                Examples.idle))
  = files Examples.idle
  /\ dirs (snd (handleFile Examples.quiet "/in/f" (Examples.config []) false false
                  Examples.idle))
     = dirs Examples.idle.
Proof.
  apply (handleFile_needs_rule Examples.quiet Examples.idle "/in/f" (Examples.config [])).
  vm_compute. exact I.
Defined.

(** ** Loading the configuration *)

Lemma sanitizeAction_valid r :
  match sanitizeAction r with
  | inl e => valid_action (Action r) = false /\ e = CfgAction (Name r) (Action r)
  | inr r' =>
      valid_action (Action r) = true
      /\ (Action r' = "move" \/ Action r' = "copy")
      /\ Name r' = Name r /\ Dest r' = Dest r
  end.
Proof.
  unfold sanitizeAction, valid_action. cbv zeta.
  destruct (String.eqb_spec (Strings.ToLower (TrimSpace (Action r))) "") as [-> | Hne].
  { simpl. auto. }
  destruct (String.eqb_spec (Strings.ToLower (TrimSpace (Action r))) "move") as [-> | Hm].
  { simpl. auto. }
  destruct (String.eqb_spec (Strings.ToLower (TrimSpace (Action r))) "copy") as [-> | Hc].
  { simpl. auto. }
  simpl. auto.
Qed.

Lemma sanitizeActions_scan rules :
  match sanitizeActions rules with
  | inl e =>
      exists i r,
        rules !! i = Some r /\ valid_action (Action r) = false
        /\ e = CfgAction (Name r) (Action r)
        /\ forall j r', (j < i)%nat -> rules !! j = Some r' ->
             valid_action (Action r') = true
  | inr rules' =>
      length rules' = length rules
      /\ Forall (fun r => Action r = "move" \/ Action r = "copy") rules'
  end.
Proof.
  induction rules as [| r rest IH]; simpl.
  { split; [done | apply List.Forall_nil]. }
  pose proof (sanitizeAction_valid r) as Hr.
  destruct (sanitizeAction r) as [e | r'].
  - destruct Hr as [Hbad ->]. exists 0%nat, r.
    split; [done |]. split; [done |]. split; [done |]. intros j r' Hj. lia.
  - destruct Hr as (Hok & Hact & _).
    destruct (sanitizeActions rest) as [e | rest'].
    + destruct IH as (i & r0 & Hi & Hbad & -> & Hbefore).
      exists (S i), r0. split; [done |]. split; [done |]. split; [done |].
      intros [| j] r1 Hj Hr1; simpl in Hr1.
      * by injection Hr1 as <-.
      * apply (Hbefore j); [lia | done].
    + destruct IH as [Hlen Hall]. split; [simpl; by rewrite Hlen |].
      by apply List.Forall_cons.
Qed.

Lemma expandDests_map env rules rules1 :
  expandDests env rules = Some rules1 ->
  length rules1 = length rules
  /\ forall i r1, rules1 !! i = Some r1 ->
       exists r, rules !! i = Some r /\ Name r1 = Name r /\ Action r1 = Action r.
Proof.
  revert rules1. induction rules as [| r rest IH]; intros rules1; simpl.
  { intros [= <-]. split; [done |]. intros i r1 H. by rewrite lookup_nil in H. }
  destruct (expandHome env (Dest r)) as [d [e |]]; [done |].
  destruct (expandDests env rest) as [rest' |]; [| done].
  intros [= <-]. destruct (IH rest' eq_refl) as [Hlen Hmap].
  split; [simpl; by rewrite Hlen |].
  intros [| i] r1 Hi; simpl in Hi.
  - injection Hi as <-. by exists r.
  - by apply Hmap.
Qed.

(** X19: a configuration that [loadConfig] accepts is fit for the
    dispatcher: every rule's action is exactly [move] or [copy], the
    list of ignored extensions is not empty, and no rule of the file has
    been dropped or added. *)
Theorem loadConfig_accepts_clean (env : Env) (decode : string -> Config -> option Config)
    (w : World) (path : string) :
  snd (loadConfig env decode w path) = None ->
  Forall (fun r => Action r = "move" \/ Action r = "copy")
    (Rules (fst (loadConfig env decode w path)))
  /\ IgnoreExts (fst (loadConfig env decode w path)) <> []
  /\ exists b cfg,
       files w !! path = Some b /\ decode b defaultConfig = Some cfg
       /\ length (Rules (fst (loadConfig env decode w path))) = length (Rules cfg).
Proof.
  unfold loadConfig.
  destruct (faulty env (OpReadFile path)); cbv beta iota; [done |].
  destruct (files w !! path) as [b |] eqn:Hb; [| done].
  destruct (decode b defaultConfig) as [cfg |] eqn:Hdec; [| done].
  destruct (expandHome env (WatchDir cfg)) as [wd [e |]]; [done |].
  destruct (expandDests env (Rules cfg)) as [rules1 |] eqn:Hexp; [| done].
  apply expandDests_map in Hexp as [Hlen1 _].
  pose proof (sanitizeActions_scan rules1) as Hscan.
  destruct (sanitizeActions rules1) as [e | rules2]; [done |].
  destruct Hscan as [Hlen2 Hall]. intros _. cbn [fst Rules IgnoreExts].
  split; [done |]. split.
  - destruct (IgnoreExts cfg); [done | done].
  - exists b, cfg. split; [done |]. split; [done |]. congruence.
Qed.

(** X20: when [loadConfig] turns a file down for a rule's action, the
    rule it names is the first rule of the file whose action is neither
    [move] nor [copy] (in any case, white space aside) nor empty, and the
    action is quoted as written; the configuration returned is the empty
    one. *)
Theorem loadConfig_names_first_invalid (env : Env)
    (decode : string -> Config -> option Config) (w : World) (path name action : string) :
  snd (loadConfig env decode w path) = Some (CfgAction name action) ->
  fst (loadConfig env decode w path) = zeroConfig
  /\ exists b cfg i r,
       files w !! path = Some b /\ decode b defaultConfig = Some cfg
       /\ Rules cfg !! i = Some r /\ Name r = name /\ Action r = action
       /\ valid_action action = false
       /\ forall j r', (j < i)%nat -> Rules cfg !! j = Some r' ->
            valid_action (Action r') = true.
Proof.
  unfold loadConfig.
  destruct (faulty env (OpReadFile path)); cbv beta iota; [done |].
  destruct (files w !! path) as [b |] eqn:Hb; [| done].
  destruct (decode b defaultConfig) as [cfg |] eqn:Hdec; [| done].
  destruct (expandHome env (WatchDir cfg)) as [wd [e |]]; [done |].
  destruct (expandDests env (Rules cfg)) as [rules1 |] eqn:Hexp; [| done].
  apply expandDests_map in Hexp as [Hlen1 Hmap].
  pose proof (sanitizeActions_scan rules1) as Hscan.
  destruct (sanitizeActions rules1) as [e | rules2]; [| done].
  destruct Hscan as (i & r1 & Hi & Hbad & -> & Hbefore).
  intros [= <- <-]. split; [done |].
  destruct (Hmap i r1 Hi) as (r & Hr & Hname & Hact).
  exists b, cfg, i, r. split; [done |]. split; [done |]. split; [done |].
  split; [done |]. split; [done |]. split; [congruence |].
  intros j r' Hj Hr'.
  assert (Hj1 : is_Some (rules1 !! j)).
  { apply lookup_lt_is_Some. rewrite Hlen1. by apply lookup_lt_Some in Hr'. }
  destruct Hj1 as [r1' Hr1'].
  destruct (Hmap j r1' Hr1') as (r0 & Hr0 & _ & Hact0).
  assert (r0 = r') by congruence. subst r0.
  rewrite <- Hact0. by apply (Hbefore j).
Qed.

Lemma loadConfig_accepts_clean_witness :
  Forall (fun r => Action r = "move" \/ Action r = "copy")
    (Rules (fst (loadConfig Examples.quiet (decode_rules [shouting; Examples.move_rule])
                   configured "/etc/downwatch.yaml")))
  /\ IgnoreExts (fst (loadConfig Examples.quiet (decode_rules [shouting; Examples.move_rule])
                        configured "/etc/downwatch.yaml")) <> []
  /\ exists b cfg,
       files configured !! "/etc/downwatch.yaml" = Some b
       /\ decode_rules [shouting; Examples.move_rule] b defaultConfig = Some cfg
       /\ length (Rules (fst (loadConfig Examples.quiet
                                (decode_rules [shouting; Examples.move_rule])
                                configured "/etc/downwatch.yaml")))
          = length (Rules cfg).
Proof.
  apply (loadConfig_accepts_clean Examples.quiet (decode_rules [shouting; Examples.move_rule])
           configured "/etc/downwatch.yaml").
  vm_compute. reflexivity.
Defined.

Lemma loadConfig_names_first_invalid_witness :
  fst (loadConfig Examples.quiet
         (decode_rules [shouting; with_action Examples.move_rule "link"; with_action shouting "x"])
         configured "/etc/downwatch.yaml") = zeroConfig
  /\ exists b cfg i r,
       files configured !! "/etc/downwatch.yaml" = Some b
       /\ decode_rules [shouting; with_action Examples.move_rule "link"; with_action shouting "x"]
            b defaultConfig = Some cfg
       /\ Rules cfg !! i = Some r /\ Name r = "Texts" /\ Action r = "link"
       /\ valid_action "link" = false
       /\ forall j r', (j < i)%nat -> Rules cfg !! j = Some r' ->
            valid_action (Action r') = true.
Proof.
  apply (loadConfig_names_first_invalid Examples.quiet
           (decode_rules [shouting; with_action Examples.move_rule "link"; with_action shouting "x"])
           configured "/etc/downwatch.yaml" "Texts" "link").
  vm_compute. reflexivity.
Defined.

(** ** The shape of an ignore entry *)

Lemma ToLower_empty s : Strings.ToLower s = "" -> s = "".
Proof. by destruct s. Qed.

(** X21: an entry of the ignore list takes effect only if it starts with
    a dot: an entry written without one, such as ["part"], matches no
    path and may as well be left out.  (The empty entry is the exception:
    it stands for the paths that have no extension.) *)
Theorem hasIgnoredExt_undotted_entry (path ig : string) (ignores : list string) :
  ig <> "" -> Strings.HasPrefix ig "." = false ->
  hasIgnoredExt path (ig :: ignores) = hasIgnoredExt path ignores.
Proof.
  intros Hne Hdot. unfold hasIgnoredExt. cbn [existsb].
  assert (Hno : Strings.EqualFold (Strings.ToLower (Filepath.Ext path)) ig = false);
    [| by rewrite Hno].
  unfold Strings.EqualFold. apply String.eqb_neq. intros Heq.
  rewrite <- Ext_ToLower in Heq. unfold Filepath.Ext in Heq.
  destruct (Filepath.ext_scan (Strings.ToLower path)) as [e |] eqn:He.
  - apply ext_scan_shape in He as [-> | (r & -> & _)]; simpl in Heq.
    + symmetry in Heq. by apply ToLower_empty in Heq.
    + destruct ig as [| c ig]; [done |]. simpl in Heq.
      injection Heq as Hc _.
      assert (Hd : Ascii.eqb (Strings.lower_byte c) "." = true)
        by (rewrite <- Hc; reflexivity).
      rewrite lower_byte_eqb_dot in Hd. apply Ascii.eqb_eq in Hd as ->.
      unfold Strings.HasPrefix in Hdot. simpl in Hdot. by destruct ig.
  - simpl in Heq. symmetry in Heq. by apply ToLower_empty in Heq.
Qed.

Lemma hasIgnoredExt_undotted_entry_witness :
  hasIgnoredExt "/in/film.mkv.part" ["part"; ".download"]
  = hasIgnoredExt "/in/film.mkv.part" [".download"].
Proof.
  apply hasIgnoredExt_undotted_entry; [done | reflexivity].
Defined.

